(** * Bitcoin transaction parsing in [mastering-taproot]

    A shallow embedding of [code/chapter04/03_parse_segwit_transaction.py]
    (the VarInt decoder and the SegWit transaction parser) together with
    models of the pieces the tutorial scripts take from the [bitcoinutils]
    library (serializer, script serializer, Taproot digest), written from
    the specification since their code is not part of this repository.

    Bytes are [Byte.byte], byte strings are lists of bytes, Python integers
    are [Z]; little-endian fields use coqutil's [le_combine]/[le_split].
    Python exceptions are an explicit error type threaded through a small
    error monad. *)

From Stdlib Require Import ZArith List String Ascii Bool Lia.
From coqutil Require Import Byte Word.LittleEndianList.
Import ListNotations.

Local Open Scope Z_scope.
Local Open Scope list_scope.

(* ================================================================== *)
(** ** The fragment of the Python runtime the parser relies on *)
(* ================================================================== *)

Module Py.

(** The exceptions the parser can raise: [data[i]] out of range, a
    [struct.unpack] on a buffer of the wrong size, [bytes.fromhex] on a
    string that is not hexadecimal. *)
Inductive exn : Type :=
| IndexError
| StructError
| ValueError.

Inductive result (A : Type) : Type :=
| Ok (a : A)
| Raise (e : exn).
Arguments Ok {A} a.
Arguments Raise {A} e.

Definition bind {A B} (m : result A) (k : A -> result B) : result B :=
  match m with
  | Ok a => k a
  | Raise e => Raise e
  end.

Definition bytes := list byte.

(** [len(data)] *)
Definition len {A} (l : list A) : Z := Z.of_nat (List.length l).

(** [data[i]] on a bytes object: an int in 0..255; a negative index
    counts from the end; out of range raises IndexError. *)
Definition index (data : bytes) (i : Z) : result Z :=
  let j := if i <? 0 then i + len data else i in
  if (j <? 0) || (len data <=? j) then Raise IndexError
  else match nth_error data (Z.to_nat j) with
       | Some b => Ok (byte.unsigned b)
       | None => Raise IndexError
       end.

(** Slice bounds are clamped the way Python clamps them. *)
Definition clamp (n i : Z) : Z :=
  if i <? 0 then Z.max (i + n) 0 else Z.min i n.

(** [data[a:b]] *)
Definition slice {A} (data : list A) (a b : Z) : list A :=
  let lo := clamp (len data) a in
  let hi := clamp (len data) b in
  firstn (Z.to_nat (hi - lo)) (skipn (Z.to_nat lo) data).

(** [struct.unpack('<H' | '<I' | '<Q', buf)[0]]: the buffer must have
    exactly the size of the format, 2, 4 or 8 bytes. *)
Definition unpack_le (size : nat) (buf : bytes) : result Z :=
  if Nat.eqb (List.length buf) size then Ok (le_combine buf)
  else Raise StructError.

(** Hexadecimal digits, lowercase as [bytes.hex()] and the [x] format
    produce them. *)
Definition hex_digit (d : Z) : ascii :=
  if d <? 10 then ascii_of_nat (Z.to_nat (48 + d))
  else ascii_of_nat (Z.to_nat (87 + d)).

(** [data.hex()] *)
Fixpoint hex (data : bytes) : string :=
  match data with
  | [] => EmptyString
  | b :: rest =>
      String (hex_digit (byte.unsigned b / 16))
        (String (hex_digit (byte.unsigned b mod 16)) (hex rest))
  end.

Fixpoint hex_digits_aux (fuel : nat) (n : Z) (acc : string) : string :=
  match fuel with
  | O => acc
  | S fuel' =>
      let acc' := String (hex_digit (n mod 16)) acc in
      if n / 16 =? 0 then acc' else hex_digits_aux fuel' (n / 16) acc'
  end.

(** The digits of a non-negative integer in base 16, at least one. *)
Definition hex_digits (n : Z) : string :=
  hex_digits_aux (S (Z.to_nat (Z.log2 n))) n EmptyString.

Fixpoint zeros (k : nat) (s : string) : string :=
  match k with
  | O => s
  | S k' => String "0"%char (zeros k' s)
  end.

(** [f'{n:0{width}x}']: zero padding goes after the sign. *)
Definition format_x (width : nat) (n : Z) : string :=
  if n <? 0 then
    let d := hex_digits (- n) in
    String "-"%char (zeros (width - 1 - String.length d) d)
  else
    let d := hex_digits n in
    zeros (width - String.length d) d.

Definition hex_value (c : ascii) : option Z :=
  let n := Z.of_nat (nat_of_ascii c) in
  if (48 <=? n) && (n <=? 57) then Some (n - 48)
  else if (97 <=? n) && (n <=? 102) then Some (n - 87)
  else if (65 <=? n) && (n <=? 70) then Some (n - 55)
  else None.

(** ASCII whitespace, which [bytes.fromhex] skips between bytes. *)
Definition is_space (c : ascii) : bool :=
  let n := nat_of_ascii c in
  (Nat.eqb n 32) || ((Nat.leb 9 n) && (Nat.leb n 13)).

(** [bytes.fromhex(s)] *)
Fixpoint fromhex (s : string) : result bytes :=
  match s with
  | EmptyString => Ok []
  | String c rest =>
      if is_space c then fromhex rest
      else
        match rest with
        | EmptyString => Raise ValueError
        | String d rest' =>
            match hex_value c, hex_value d with
            | Some h, Some l =>
                bind (fromhex rest')
                     (fun bs => Ok (byte.of_Z (16 * h + l) :: bs))
            | _, _ => Raise ValueError
            end
        end
  end.

End Py.

Import Py.

Notation "x <- m ;; k" := (Py.bind m (fun x => k))
  (at level 61, m at next level, right associativity).
Notation "' pat <- m ;; k" := (Py.bind m (fun x => match x with pat => k end))
  (at level 61, pat pattern, m at next level, right associativity).

(* ================================================================== *)
(** ** [03_parse_segwit_transaction.py] *)
(* ================================================================== *)

Module Parser.

(** [parse_varint(data, offset)], lines 22-32. *)
Definition parse_varint (data : bytes) (offset : Z) : result (Z * Z) :=
  first_byte <- index data offset ;;
  if first_byte <? 0xfd then
    Ok (first_byte, offset + 1)
  else if first_byte =? 0xfd then
    v <- unpack_le 2 (slice data (offset + 1) (offset + 3)) ;;
    Ok (v, offset + 3)
  else if first_byte =? 0xfe then
    v <- unpack_le 4 (slice data (offset + 1) (offset + 5)) ;;
    Ok (v, offset + 5)
  else
    v <- unpack_le 8 (slice data (offset + 1) (offset + 9)) ;;
    Ok (v, offset + 9).


(** The dictionaries the parser builds, one record per dictionary
    literal of the source. *)
Record ParsedInput : Type := mkParsedInput {
  in_txid : string;
  in_vout : Z;
  in_script_sig : string;
  in_script_sig_len : Z;
  in_sequence : string
}.

Record ParsedOutput : Type := mkParsedOutput {
  out_value : Z;
  out_value_hex : string;
  out_script_len : Z;
  out_script_pubkey : string
}.

Record WitnessItem : Type := mkWitnessItem {
  wit_len : Z;
  wit_data : string
}.

Record ParsedTx : Type := mkParsedTx {
  p_version : string;
  p_is_segwit : bool;
  p_marker : option string;
  p_flag : option string;
  p_input_count : Z;
  p_inputs : list ParsedInput;
  p_output_count : Z;
  p_outputs : list ParsedOutput;
  p_witnesses : list (list WitnessItem);
  p_locktime : string;
  p_total_size : Z
}.

(** The input loop, lines 59-87: [n] iterations of [range(input_count)]
    remain; [break] returns what has been collected. *)
Fixpoint parse_inputs (n : nat) (tx_bytes : bytes) (offset : Z)
         (inputs : list ParsedInput) : result (list ParsedInput * Z) :=
  match n with
  | O => Ok (inputs, offset)
  | S n' =>
      if offset + 32 >? len tx_bytes then Ok (inputs, offset)
      else
        let txid_bytes := slice tx_bytes offset (offset + 32) in
        let txid := hex (rev txid_bytes) in
        let offset := offset + 32 in
        vout <- unpack_le 4 (slice tx_bytes offset (offset + 4)) ;;
        let offset := offset + 4 in
        '(script_sig_len, offset) <- parse_varint tx_bytes offset ;;
        let script_sig :=
          if script_sig_len >? 0
          then hex (slice tx_bytes offset (offset + script_sig_len))
          else EmptyString in
        let offset := offset + script_sig_len in
        sequence <- unpack_le 4 (slice tx_bytes offset (offset + 4)) ;;
        let offset := offset + 4 in
        parse_inputs n' tx_bytes offset
          (inputs ++ [mkParsedInput txid vout script_sig script_sig_len
                                    (format_x 8 sequence)])
  end.

(** The output loop, lines 92-115. *)
Fixpoint parse_outputs (n : nat) (tx_bytes : bytes) (offset : Z)
         (outputs : list ParsedOutput) : result (list ParsedOutput * Z) :=
  match n with
  | O => Ok (outputs, offset)
  | S n' =>
      if offset + 8 >? len tx_bytes then Ok (outputs, offset)
      else
        value <- unpack_le 8 (slice tx_bytes offset (offset + 8)) ;;
        let offset := offset + 8 in
        if offset >=? len tx_bytes then Ok (outputs, offset)
        else
          '(script_len, offset) <- parse_varint tx_bytes offset ;;
          if offset + script_len >? len tx_bytes then Ok (outputs, offset)
          else
            let script_pubkey :=
              hex (slice tx_bytes offset (offset + script_len)) in
            let offset := offset + script_len in
            parse_outputs n' tx_bytes offset
              (outputs ++ [mkParsedOutput value (format_x 16 value)
                                          script_len script_pubkey])
  end.

(** The inner witness loop, lines 125-136. *)
Fixpoint parse_witness_items (n : nat) (tx_bytes : bytes) (offset : Z)
         (witness_items : list WitnessItem)
  : result (list WitnessItem * Z) :=
  match n with
  | O => Ok (witness_items, offset)
  | S n' =>
      if offset >=? len tx_bytes then Ok (witness_items, offset)
      else
        '(item_len, offset) <- parse_varint tx_bytes offset ;;
        if offset + item_len >? len tx_bytes then Ok (witness_items, offset)
        else
          let item_data :=
            if item_len >? 0
            then hex (slice tx_bytes offset (offset + item_len))
            else EmptyString in
          let offset := offset + item_len in
          parse_witness_items n' tx_bytes offset
            (witness_items ++ [mkWitnessItem item_len item_data])
  end.

(** The outer witness loop, lines 120-137. *)
Fixpoint parse_witnesses (n : nat) (tx_bytes : bytes) (offset : Z)
         (witnesses : list (list WitnessItem))
  : result (list (list WitnessItem) * Z) :=
  match n with
  | O => Ok (witnesses, offset)
  | S n' =>
      if offset >=? len tx_bytes then Ok (witnesses, offset)
      else
        '(witness_item_count, offset) <- parse_varint tx_bytes offset ;;
        '(witness_items, offset) <-
          parse_witness_items (Z.to_nat witness_item_count)
                              tx_bytes offset [] ;;
        parse_witnesses n' tx_bytes offset (witnesses ++ [witness_items])
  end.

(** Everything the parser has collected when it reaches the locktime,
    lines 40-137. *)
Record BeforeLocktime : Type := mkBeforeLocktime {
  b_version : Z;
  b_is_segwit : bool;
  b_marker : option Z;
  b_flag : option Z;
  b_input_count : Z;
  b_inputs : list ParsedInput;
  b_output_count : Z;
  b_outputs : list ParsedOutput;
  b_witnesses : list (list WitnessItem);
  b_offset : Z
}.

(** Lines 44-54: the marker and flag. *)
Definition parse_marker_flag (tx_bytes : bytes) (offset : Z)
  : result (bool * option Z * option Z * Z) :=
  marker_here <-
    (if offset <? len tx_bytes
     then b <- index tx_bytes offset ;; Ok (b =? 0x00)
     else Ok false) ;;
  if (marker_here : bool) then
    marker <- index tx_bytes offset ;;
    let offset := offset + 1 in
    flag <- index tx_bytes offset ;;
    let offset := offset + 1 in
    Ok (true, Some marker, Some flag, offset)
  else
    Ok (false, None, None, offset).

(** Lines 56-137, from the input count to the end of the witnesses. *)
Definition parse_body (tx_bytes : bytes) (version : Z) (is_segwit : bool)
           (marker flag : option Z) (offset : Z) : result BeforeLocktime :=
  '(input_count, offset) <- parse_varint tx_bytes offset ;;
  '(inputs, offset) <-
    parse_inputs (Z.to_nat input_count) tx_bytes offset [] ;;
  '(output_count, offset) <- parse_varint tx_bytes offset ;;
  '(outputs, offset) <-
    parse_outputs (Z.to_nat output_count) tx_bytes offset [] ;;
  '(witnesses, offset) <-
    (if is_segwit && (offset <? len tx_bytes)
     then parse_witnesses (Z.to_nat input_count) tx_bytes offset []
     else Ok ([], offset)) ;;
  Ok (mkBeforeLocktime version is_segwit marker flag input_count inputs
                       output_count outputs witnesses offset).

(** Lines 37-137. *)
Definition parse_before_locktime (tx_bytes : bytes)
  : result BeforeLocktime :=
  let offset := 0 in
  version <- unpack_le 4 (slice tx_bytes offset (offset + 4)) ;;
  let offset := offset + 4 in
  '(is_segwit, marker, flag, offset) <- parse_marker_flag tx_bytes offset ;;
  parse_body tx_bytes version is_segwit marker flag offset.

(** Lines 139-143: the locktime, zero unless four bytes remain. *)
Definition parse_locktime (tx_bytes : bytes) (offset : Z) : result (Z * Z) :=
  let locktime := 0 in
  if offset + 4 <=? len tx_bytes then
    locktime <- unpack_le 4 (slice tx_bytes offset (offset + 4)) ;;
    Ok (locktime, offset + 4)
  else Ok (locktime, offset).

(** Lines 145-157: the returned dictionary. *)
Definition make_result (tx_bytes : bytes) (b : BeforeLocktime)
           (locktime : Z) : ParsedTx :=
  mkParsedTx (format_x 8 (b_version b))
             (b_is_segwit b)
             (option_map (format_x 2) (b_marker b))
             (option_map (format_x 2) (b_flag b))
             (b_input_count b) (b_inputs b)
             (b_output_count b) (b_outputs b)
             (b_witnesses b)
             (format_x 8 locktime)
             (len tx_bytes).

(** The parser on the decoded bytes, lines 38-157. *)
Definition parse_segwit_bytes (tx_bytes : bytes) : result ParsedTx :=
  b <- parse_before_locktime tx_bytes ;;
  '(locktime, _) <- parse_locktime tx_bytes (b_offset b) ;;
  Ok (make_result tx_bytes b locktime).

(** [parse_segwit_transaction(tx_hex)], lines 35-157. *)
Definition parse_segwit_transaction (tx_hex : string) : result ParsedTx :=
  tx_bytes <- fromhex tx_hex ;;
  parse_segwit_bytes tx_bytes.

End Parser.

Import Parser.

(* ================================================================== *)
(** ** The wire format of section 4.5, which the scripts obtain from
       [Transaction.serialize] of the library *)
(* ================================================================== *)

Module Wire.

(** Modelled from the spec: the VarInt encoder of section 4.1; the
    repository only has the decoder.  One byte below 0xfd, then 0xfd,
    0xfe, 0xff followed by 2, 4, 8 little-endian bytes. *)
Definition encode_varint (n : Z) : bytes :=
  if n <? 0xfd then [byte.of_Z n]
  else if n <=? 0xffff then Byte.xfd :: le_split 2 n
  else if n <=? 0xffffffff then Byte.xfe :: le_split 4 n
  else Byte.xff :: le_split 8 n.

(** Modelled from the spec: the transaction data model of section 3
    ([TxInput], [TxOutput], [Transaction] of the library).  Scripts are
    carried as their serialized bytes, which is all the wire format and
    the parser look at; the transaction id is kept in display order. *)
Record TxInput : Type := mkTxInput {
  txid : bytes;
  vout : Z;
  script_sig : bytes;
  sequence : Z
}.

Record TxOutput : Type := mkTxOutput {
  value : Z;
  script_pubkey : bytes
}.

Definition Witness : Type := list bytes.

Record Transaction : Type := mkTransaction {
  version : Z;
  inputs : list TxInput;
  outputs : list TxOutput;
  has_segwit : bool;
  witnesses : list Witness;
  locktime : Z
}.

(** The derived flag: constructed with SegWit enabled, or some witness
    is not empty. *)
Definition witness_carrying (tx : Transaction) : bool :=
  has_segwit tx
  || existsb (fun w => negb (Nat.eqb (List.length w) 0)) (witnesses tx).

(** A byte string behind its VarInt length. *)
Definition with_length (b : bytes) : bytes :=
  encode_varint (len b) ++ b.

Definition serialize_input (i : TxInput) : bytes :=
  rev (txid i) ++ le_split 4 (vout i)
      ++ with_length (script_sig i) ++ le_split 4 (sequence i).

Definition serialize_output (o : TxOutput) : bytes :=
  le_split 8 (value o) ++ with_length (script_pubkey o).

Definition serialize_witness (w : Witness) : bytes :=
  encode_varint (len w) ++ List.concat (map with_length w).

(** Modelled from the spec: [serialize] of section 4.5, the library's
    [Transaction.serialize] that the scripts call.  The witness stacks
    are written in the order of the list, which by the invariant of
    section 3 has one stack per input. *)
Definition serialize (tx : Transaction) : bytes :=
  le_split 4 (version tx)
    ++ (if witness_carrying tx then [Byte.x00; Byte.x01] else [])
    ++ encode_varint (len (inputs tx))
    ++ List.concat (map serialize_input (inputs tx))
    ++ encode_varint (len (outputs tx))
    ++ List.concat (map serialize_output (outputs tx))
    ++ (if witness_carrying tx
        then List.concat (map serialize_witness (witnesses tx)) else [])
    ++ le_split 4 (locktime tx).

(** Field values within the declared widths. *)
Definition u32 (z : Z) : bool := (0 <=? z) && (z <? 2 ^ 32).
Definition u64 (z : Z) : bool := (0 <=? z) && (z <? 2 ^ 64).
Definition i32 (z : Z) : bool := (- 2 ^ 31 <=? z) && (z <? 2 ^ 31).

Definition input_in_width (i : TxInput) : bool :=
  Nat.eqb (List.length (txid i)) 32 && u32 (vout i)
  && u64 (len (script_sig i)) && u32 (sequence i).

Definition output_in_width (o : TxOutput) : bool :=
  u64 (value o) && u64 (len (script_pubkey o)).

Definition witness_in_width (w : Witness) : bool :=
  u64 (len w) && forallb (fun item => u64 (len item)) w.

Definition in_width (tx : Transaction) : bool :=
  i32 (version tx)
  && u64 (len (inputs tx)) && forallb input_in_width (inputs tx)
  && u64 (len (outputs tx)) && forallb output_in_width (outputs tx)
  && forallb witness_in_width (witnesses tx)
  && u32 (locktime tx).

(** The invariant of section 3: the witnesses, when present, are aligned
    with the inputs; a transaction that carries none has no list. *)
Definition aligned (tx : Transaction) : bool :=
  if witness_carrying tx
  then Nat.eqb (List.length (witnesses tx)) (List.length (inputs tx))
  else Nat.eqb (List.length (witnesses tx)) 0.

End Wire.

Import Wire.

(** The dictionary that describes a transaction: what the parser has to
    return for the round trip to reproduce it.  The version is shown as
    the 32-bit pattern of its four bytes. *)
Definition describe_input (i : TxInput) : ParsedInput :=
  mkParsedInput (hex (txid i)) (vout i) (hex (script_sig i))
                (len (script_sig i)) (format_x 8 (sequence i)).

Definition describe_output (o : TxOutput) : ParsedOutput :=
  mkParsedOutput (value o) (format_x 16 (value o))
                 (len (script_pubkey o)) (hex (script_pubkey o)).

Definition describe_item (item : bytes) : WitnessItem :=
  mkWitnessItem (len item) (hex item).

Definition describe (tx : Transaction) : ParsedTx :=
  mkParsedTx (format_x 8 (version tx mod 2 ^ 32))
             (witness_carrying tx)
             (if witness_carrying tx then Some "00"%string else None)
             (if witness_carrying tx then Some "01"%string else None)
             (len (inputs tx)) (map describe_input (inputs tx))
             (len (outputs tx)) (map describe_output (outputs tx))
             (map (map describe_item) (witnesses tx))
             (format_x 8 (locktime tx))
             (len (serialize tx)).

(** The bytes that follow the version and the optional marker and flag. *)
Definition body_bytes (tx : Transaction) : bytes :=
  encode_varint (len (inputs tx))
    ++ List.concat (map serialize_input (inputs tx))
    ++ encode_varint (len (outputs tx))
    ++ List.concat (map serialize_output (outputs tx))
    ++ (if witness_carrying tx
        then List.concat (map serialize_witness (witnesses tx)) else [])
    ++ le_split 4 (locktime tx).


(* ================================================================== *)
(** ** Scripts and the Taproot digest, which the scripts obtain from the
       library's [Script], [P2shAddress] and [sign_taproot_input] *)
(* ================================================================== *)

Module Spec.

(** Modelled from the spec: the error kinds of section 7; the scripts
    themselves define none. *)
Inductive error : Type :=
| TruncatedInput
| InvalidSegwitFlag
| PushTooLarge
| MissingInputAmount
| IncompleteSpendData
| UnknownOpcode.

Inductive outcome (A : Type) : Type :=
| Done (a : A)
| Fail (e : error).
Arguments Done {A} a.
Arguments Fail {A} e.

Definition and_then {A B} (m : outcome A) (k : A -> outcome B)
  : outcome B :=
  match m with
  | Done a => k a
  | Fail e => Fail e
  end.

End Spec.

Import Spec.

Module Script.

(** Modelled from the spec: the closed opcode enumeration of section
    4.2, which the library's [Script] class provides. *)
Inductive opcode : Type :=
| OP_0 | OP_1 | OP_2 | OP_3 | OP_4 | OP_5 | OP_6 | OP_7 | OP_8
| OP_9 | OP_10 | OP_11 | OP_12 | OP_13 | OP_14 | OP_15 | OP_16
| OP_DUP | OP_HASH160 | OP_EQUALVERIFY | OP_EQUAL | OP_CHECKSIG
| OP_CHECKMULTISIG | OP_CHECKLOCKTIMEVERIFY | OP_CHECKSEQUENCEVERIFY
| OP_DROP | OP_RETURN.

Definition all_opcodes : list opcode :=
  [OP_0; OP_1; OP_2; OP_3; OP_4; OP_5; OP_6; OP_7; OP_8;
   OP_9; OP_10; OP_11; OP_12; OP_13; OP_14; OP_15; OP_16;
   OP_DUP; OP_HASH160; OP_EQUALVERIFY; OP_EQUAL; OP_CHECKSIG;
   OP_CHECKMULTISIG; OP_CHECKLOCKTIMEVERIFY; OP_CHECKSEQUENCEVERIFY;
   OP_DROP; OP_RETURN].

Definition opcode_name (o : opcode) : string :=
  match o with
  | OP_0 => "OP_0" | OP_1 => "OP_1" | OP_2 => "OP_2" | OP_3 => "OP_3"
  | OP_4 => "OP_4" | OP_5 => "OP_5" | OP_6 => "OP_6" | OP_7 => "OP_7"
  | OP_8 => "OP_8" | OP_9 => "OP_9" | OP_10 => "OP_10"
  | OP_11 => "OP_11" | OP_12 => "OP_12" | OP_13 => "OP_13"
  | OP_14 => "OP_14" | OP_15 => "OP_15" | OP_16 => "OP_16"
  | OP_DUP => "OP_DUP" | OP_HASH160 => "OP_HASH160"
  | OP_EQUALVERIFY => "OP_EQUALVERIFY" | OP_EQUAL => "OP_EQUAL"
  | OP_CHECKSIG => "OP_CHECKSIG" | OP_CHECKMULTISIG => "OP_CHECKMULTISIG"
  | OP_CHECKLOCKTIMEVERIFY => "OP_CHECKLOCKTIMEVERIFY"
  | OP_CHECKSEQUENCEVERIFY => "OP_CHECKSEQUENCEVERIFY"
  | OP_DROP => "OP_DROP" | OP_RETURN => "OP_RETURN"
  end%string.

(** Modelled from the spec: the single-byte codes; section 8 fixes
    OP_DUP, OP_HASH160, OP_EQUALVERIFY and OP_CHECKSIG by their hex, the
    others are Bitcoin's. *)
Definition opcode_byte (o : opcode) : byte :=
  match o with
  | OP_0 => Byte.x00 | OP_1 => Byte.x51 | OP_2 => Byte.x52
  | OP_3 => Byte.x53 | OP_4 => Byte.x54 | OP_5 => Byte.x55
  | OP_6 => Byte.x56 | OP_7 => Byte.x57 | OP_8 => Byte.x58
  | OP_9 => Byte.x59 | OP_10 => Byte.x5a | OP_11 => Byte.x5b
  | OP_12 => Byte.x5c | OP_13 => Byte.x5d | OP_14 => Byte.x5e
  | OP_15 => Byte.x5f | OP_16 => Byte.x60
  | OP_DUP => Byte.x76 | OP_HASH160 => Byte.xa9
  | OP_EQUALVERIFY => Byte.x88 | OP_EQUAL => Byte.x87
  | OP_CHECKSIG => Byte.xac | OP_CHECKMULTISIG => Byte.xae
  | OP_CHECKLOCKTIMEVERIFY => Byte.xb1
  | OP_CHECKSEQUENCEVERIFY => Byte.xb2
  | OP_DROP => Byte.x75 | OP_RETURN => Byte.x6a
  end.

Definition opcode_of_name (s : string) : option opcode :=
  find (fun o => String.eqb (opcode_name o) s) all_opcodes.

(** Modelled from the spec: a script is an ordered sequence of items,
    each an opcode or a data push (section 3). *)
Inductive item : Type :=
| Op (o : opcode)
| Push (data : bytes).

Definition script : Type := list item.

(** Modelled from the spec: [parse_item_list] of section 4.2, the
    library's [Script([...])] constructor: a token is the name of an
    opcode or the hex of the bytes to push. *)
Definition parse_token (t : string) : outcome item :=
  match opcode_of_name t with
  | Some o => Done (Op o)
  | None =>
      match fromhex t with
      | Ok b => Done (Push b)
      | Raise _ => Fail UnknownOpcode
      end
  end.

Fixpoint parse_item_list (tokens : list string) : outcome script :=
  match tokens with
  | [] => Done []
  | t :: rest =>
      and_then (parse_token t) (fun i =>
      and_then (parse_item_list rest) (fun s => Done (i :: s)))
  end.

(** Modelled from the spec: the minimal push prefix of section 3, the
    length itself up to 75 bytes, then OP_PUSHDATA1, OP_PUSHDATA2,
    OP_PUSHDATA4 with a 1, 2, 4 byte length; [PushTooLarge] beyond. *)
Definition push_prefix (n : Z) : outcome bytes :=
  if n <=? 75 then Done [byte.of_Z n]
  else if n <=? 0xff then Done (Byte.x4c :: le_split 1 n)
  else if n <=? 0xffff then Done (Byte.x4d :: le_split 2 n)
  else if n <=? 0xffffffff then Done (Byte.x4e :: le_split 4 n)
  else Fail PushTooLarge.

Definition item_to_bytes (i : item) : outcome bytes :=
  match i with
  | Op o => Done [opcode_byte o]
  | Push data =>
      and_then (push_prefix (len data)) (fun p => Done (p ++ data))
  end.

(** Modelled from the spec: [to_bytes] of section 4.2, the library's
    [Script.to_bytes]. *)
Fixpoint to_bytes (s : script) : outcome bytes :=
  match s with
  | [] => Done []
  | i :: rest =>
      and_then (item_to_bytes i) (fun b =>
      and_then (to_bytes rest) (fun bs => Done (b ++ bs)))
  end.

Section Derivation.

(** The hash provider of section 6. *)
Variable hash160 : bytes -> bytes.

(** Modelled from the spec: the P2SH row of section 4.3, the
    library's [P2shAddress.from_script(...).to_script_pub_key()]. *)
Definition p2sh_script_pubkey (redeem_script : script) : outcome script :=
  and_then (to_bytes redeem_script) (fun redeem_script_bytes =>
    Done [Op OP_HASH160; Push (hash160 redeem_script_bytes); Op OP_EQUAL]).

End Derivation.

(** The token list of [create_multisig_p2sh], lines 28-35 of
    [01_create_multisig_p2sh.py], for any three keys in hex. *)
Definition multisig_2of3_tokens (alice_pk bob_pk carol_pk : string)
  : list string :=
  ["OP_2"; alice_pk; bob_pk; carol_pk; "OP_3"; "OP_CHECKMULTISIG"]%string.

End Script.

Module Sighash.

Section Taproot.

(** The hash provider of section 6. *)
Variable sha256 : bytes -> bytes.
Variable tagged_hash : string -> bytes -> bytes.

Definition outpoint (i : TxInput) : bytes :=
  rev (txid i) ++ le_split 4 (vout i).

(** Modelled from the spec: every input of the transaction, in order,
    with its amount and its scriptPubKey; [IncompleteSpendData] when one
    of them is missing (section 4.4). *)
Fixpoint spend_data (ins : list TxInput) (amounts : list Z)
         (scripts : list bytes) : outcome (list (Z * bytes)) :=
  match ins with
  | [] => Done []
  | _ :: ins' =>
      match amounts, scripts with
      | a :: amounts', s :: scripts' =>
          and_then (spend_data ins' amounts' scripts')
                   (fun rest => Done ((a, s) :: rest))
      | _, _ => Fail IncompleteSpendData
      end
  end.

(** Modelled from the spec: the BIP341 key-path digest of section
    4.4, which the library computes inside [sign_taproot_input]. *)
Definition taproot_sighash (tx : Transaction) (input_index : Z)
           (scripts : list bytes) (amounts : list Z) (sighash_type : Z)
  : outcome bytes :=
  and_then (spend_data (inputs tx) amounts scripts) (fun data =>
    Done (tagged_hash "TapSighash"
            ([Byte.x00] ++ [byte.of_Z sighash_type]
               ++ le_split 4 (version tx)
               ++ le_split 4 (locktime tx)
               ++ sha256 (List.concat (map outpoint (inputs tx)))
               ++ sha256 (List.concat
                            (map (fun d => le_split 8 (fst d)) data))
               ++ sha256 (List.concat
                            (map (fun d => with_length (snd d)) data))
               ++ sha256 (List.concat
                            (map (fun i => le_split 4 (sequence i))
                                 (inputs tx)))
               ++ [Byte.x00]
               ++ le_split 4 input_index))).

End Taproot.

End Sighash.

(** The number of bytes a VarInt occupies, as its first byte announces. *)
Definition varint_width (first_byte : Z) : Z :=
  if first_byte <? 0xfd then 1
  else if first_byte =? 0xfd then 3
  else if first_byte =? 0xfe then 5
  else 9.

(** Bytes written in hex, as the scripts write them. *)
Definition unhex (s : string) : bytes :=
  match fromhex s with Ok b => b | Raise _ => [] end.

(* ================================================================== *)
(** ** The transactions and keys of the tutorial scripts *)
(* ================================================================== *)

(** The transaction broadcast to testnet, line 304 of
    [03_parse_segwit_transaction.py], and the transaction it encodes. *)
Definition real_signed_tx_hex : string :=
  "0200000000010148bcdd9dfa3749b74a1390d7bd272197e2588011abfb3303717d416f8e4354140000000000fdffffff019a02000000000000160014c5b28d6bba91a2693a9b1876bcd3929323890fb202473044022015098d26918b46ab36b0d1b50ee502b33d5c5b5257c76bd6d00ccb31452c25ae0220256e82d4df10981f25f91e5273be39fced8fe164434616c94fa48f3549e33c03012102898711e6bf63f5cbe1b38c05e89d6c391c59e9f8f695da44bf3d20ca674c851900000000".

Definition real_signed_tx : Transaction :=
  mkTransaction 2
    [mkTxInput
       (unhex "1454438e6f417d710333fbab118058e2972127bdd790134ab74937fa9dddbc48")
       0 [] 0xfffffffd]
    [mkTxOutput 666 (unhex "0014c5b28d6bba91a2693a9b1876bcd3929323890fb2")]
    true
    [[unhex "3044022015098d26918b46ab36b0d1b50ee502b33d5c5b5257c76bd6d00ccb31452c25ae0220256e82d4df10981f25f91e5273be39fced8fe164434616c94fa48f3549e33c0301";
      unhex "02898711e6bf63f5cbe1b38c05e89d6c391c59e9f8f695da44bf3d20ca674c8519"]]
    0.


(** A legacy transaction without inputs and with locktime 1. *)
Definition zero_input_legacy : Transaction :=
  mkTransaction 1 [] [] false [] 1.

(** The transaction of [create_segwit_transaction] before signing, lines
    65-69 of [02_create_segwit_transaction.py]: one input with the default
    sequence, 666 satoshis to a P2WPKH script, SegWit enabled, no witness
    attached. *)
Definition unsigned_segwit_tx : Transaction :=
  mkTransaction 2
    [mkTxInput
       (unhex "1454438e6f417d710333fbab118058e2972127bdd790134ab74937fa9dddbc48")
       0 [] 0xfffffffd]
    [mkTxOutput 666 (unhex "0014c5b28d6bba91a2693a9b1876bcd3929323890fb2")]
    true [] 0.

(** The three keys of [create_multisig_p2sh], lines 23-25. *)
Definition alice_pk : bytes :=
  unhex "02898711e6bf63f5cbe1b38c05e89d6c391c59e9f8f695da44bf3d20ca674c8519".
Definition bob_pk : bytes :=
  unhex "0284b5951609b76619a1ce7f48977b4312ebe226987166ef044bfb374ceef63af5".
Definition carol_pk : bytes :=
  unhex "0317aa89b43f46a0c0cdbd9a302f2508337ba6a06d123854481b52de9c20996011".



(* ================================================================== *)
(** ** Reading at a cursor *)
(* ================================================================== *)

(** [at_cursor data off rest]: [off] is a position of [data] and [rest]
    is what lies from there to the end. *)
Definition at_cursor (data : bytes) (off : Z) (rest : bytes) : Prop :=
  exists pre, data = pre ++ rest /\ off = len pre.









(** What every entry of a parse result satisfies: numbers within the
    width of the field they were read from, hex strings as long as the
    recorded length says. *)
Definition input_ok (i : ParsedInput) : Prop :=
  String.length (in_txid i) = 64%nat
  /\ 0 <= in_vout i < 2 ^ 32
  /\ 0 <= in_script_sig_len i < 2 ^ 64
  /\ Z.of_nat (String.length (in_script_sig i)) = 2 * in_script_sig_len i
  /\ String.length (in_sequence i) = 8%nat.

Definition output_ok (o : ParsedOutput) : Prop :=
  0 <= out_value o < 2 ^ 64
  /\ String.length (out_value_hex o) = 16%nat
  /\ 0 <= out_script_len o < 2 ^ 64
  /\ Z.of_nat (String.length (out_script_pubkey o)) = 2 * out_script_len o.

Definition item_ok (w : WitnessItem) : Prop :=
  0 <= wit_len w < 2 ^ 64
  /\ Z.of_nat (String.length (wit_data w)) = 2 * wit_len w.

(** A result with another total size, and with other witnesses. *)
Definition with_total_size (r : ParsedTx) (n : Z) : ParsedTx :=
  mkParsedTx (p_version r) (p_is_segwit r) (p_marker r) (p_flag r)
             (p_input_count r) (p_inputs r) (p_output_count r) (p_outputs r)
             (p_witnesses r) (p_locktime r) n.

Definition with_witnesses (r : ParsedTx) (ws : list (list WitnessItem))
  : ParsedTx :=
  mkParsedTx (p_version r) (p_is_segwit r) (p_marker r) (p_flag r)
             (p_input_count r) (p_inputs r) (p_output_count r) (p_outputs r)
             ws (p_locktime r) (p_total_size r).

Definition with_locktime (r : ParsedTx) (locktime : string) : ParsedTx :=
  mkParsedTx (p_version r) (p_is_segwit r) (p_marker r) (p_flag r)
             (p_input_count r) (p_inputs r) (p_output_count r) (p_outputs r)
             (p_witnesses r) locktime (p_total_size r).

(** A serialization without its last four bytes, the locktime. *)
Definition without_locktime (tx : Transaction) : bytes :=
  firstn (List.length (serialize tx) - 4) (serialize tx).

(** The number a string of hex digits denotes, to read back what
    [format_x] prints. *)
Fixpoint hex_number (s : string) : Z :=
  match s with
  | EmptyString => 0
  | String c rest =>
      match hex_value c with
      | Some d => d * 16 ^ Z.of_nat (String.length rest) + hex_number rest
      | None => 0
      end
  end.

(* ================================================================== *)
(** ** The definitions on the data of the scripts *)
(* ================================================================== *)

Example parse_varint_two_bytes :
  parse_varint (unhex "fd0302") 0 = Ok (515, 3).
Proof. vm_compute. reflexivity. Qed.

(** The values of section 8. *)
Example varint_boundaries :
  map (fun n => parse_varint (encode_varint n) 0)
      [0; 252; 253; 65535; 65536; 2 ^ 32 - 1; 2 ^ 32; 2 ^ 64 - 1]
  = [Ok (0, 1); Ok (252, 1); Ok (253, 3); Ok (65535, 3); Ok (65536, 5);
     Ok (2 ^ 32 - 1, 5); Ok (2 ^ 32, 9); Ok (2 ^ 64 - 1, 9)].
Proof. vm_compute. reflexivity. Qed.

Example format_sequence : format_x 8 4294967293 = "fffffffd"%string.
Proof. vm_compute. reflexivity. Qed.

Example format_negative : format_x 8 (-1) = "-0000001"%string.
Proof. vm_compute. reflexivity. Qed.

Example hex_lowercase : hex (unhex "00ff1A") = "00ff1a"%string.
Proof. vm_compute. reflexivity. Qed.

Example real_tx_serialize : hex (serialize real_signed_tx) = real_signed_tx_hex.
Proof. vm_compute. reflexivity. Qed.

Example real_tx_parse :
  parse_segwit_transaction real_signed_tx_hex = Ok (describe real_signed_tx).
Proof. vm_compute. reflexivity. Qed.

(** The sizes printed by [create_segwit_transaction], lines 140 and 150
    of [02_create_segwit_transaction.py]. *)
Example sizes_before_and_after_signing :
  len (serialize unsigned_segwit_tx) = 84
  /\ len (serialize real_signed_tx) = 191.
Proof. split; vm_compute; reflexivity. Qed.

(** Phase 1 of [compare_hardcoded_vs_actual]: the unsigned transaction has
    no witness stack on the wire, the parser reads one from the first byte
    of the locktime and then finds fewer than four bytes left. *)
Example unsigned_tx_parse :
  parse_segwit_transaction (hex (serialize unsigned_segwit_tx))
  = Ok (mkParsedTx "00000002" true (Some "00"%string) (Some "01"%string)
          1 [mkParsedInput
               "1454438e6f417d710333fbab118058e2972127bdd790134ab74937fa9dddbc48"
               0 "" 0 "fffffffd"]
          1 [mkParsedOutput 666 "000000000000029a" 22
               "0014c5b28d6bba91a2693a9b1876bcd3929323890fb2"]
          [[]] "00000000" 84).
Proof. vm_compute. reflexivity. Qed.

(** The P2PKH template of section 8 as a check of the opcode table. *)
Example p2pkh_template (h : bytes) :
  List.length h = 20%nat ->
  Script.to_bytes
    [Script.Op Script.OP_DUP; Script.Op Script.OP_HASH160; Script.Push h;
     Script.Op Script.OP_EQUALVERIFY; Script.Op Script.OP_CHECKSIG]
  = Done (Byte.x76 :: Byte.xa9 :: Byte.x14 :: h ++ [Byte.x88; Byte.xac]).
Proof.
  intros Hl. cbn [Script.to_bytes Script.item_to_bytes].
  unfold len. rewrite Hl. reflexivity.
Qed.

(* ================================================================== *)
(** ** Lemmas on reading at a cursor *)
(* ================================================================== *)

Section Cursor.

Lemma len_nonneg {A} (l : list A) : 0 <= len l.
Proof. unfold len. lia. Qed.

Lemma len_app {A} (l1 l2 : list A) : len (l1 ++ l2) = len l1 + len l2.
Proof. unfold len. rewrite length_app. lia. Qed.

Lemma len_cons {A} (a : A) (l : list A) : len (a :: l) = 1 + len l.
Proof. unfold len. cbn [List.length]. lia. Qed.

Lemma len_nil {A} : len (@nil A) = 0.
Proof. reflexivity. Qed.

Lemma to_nat_len {A} (l : list A) : Z.to_nat (len l) = List.length l.
Proof. unfold len. apply Nat2Z.id. Qed.

Lemma len_le_split n z : len (le_split n z) = Z.of_nat n.
Proof. unfold len. now rewrite length_le_split. Qed.

Lemma at_cursor_start data : at_cursor data 0 data.
Proof. exists []. split; reflexivity. Qed.

Lemma at_cursor_len data off rest :
  at_cursor data off rest -> len data = off + len rest.
Proof. intros (pre & -> & ->). apply len_app. Qed.


Lemma at_cursor_advance data off x rest :
  at_cursor data off (x ++ rest) -> at_cursor data (off + len x) rest.
Proof.
  intros (pre & -> & ->). exists (pre ++ x). split.
  - now rewrite <- app_assoc.
  - now rewrite len_app.
Qed.

Lemma at_cursor_advance1 data off b rest :
  at_cursor data off (b :: rest) -> at_cursor data (off + 1) rest.
Proof.
  intros H. change (b :: rest) with ([b] ++ rest) in H.
  apply at_cursor_advance in H. exact H.
Qed.

Lemma at_cursor_index data off b rest :
  at_cursor data off (b :: rest) -> index data off = Ok (byte.unsigned b).
Proof.
  intros (pre & -> & ->). unfold index.
  pose proof (len_nonneg pre) as Hp.
  destruct (len pre <? 0) eqn:E; [apply Z.ltb_lt in E; lia|].
  rewrite len_app, len_cons.
  pose proof (len_nonneg rest) as Hr.
  replace (len pre <? 0) with false by (symmetry; apply Z.ltb_ge; lia).
  replace (len pre + (1 + len rest) <=? len pre) with false
    by (symmetry; apply Z.leb_gt; lia).
  cbn [orb]. unfold len. rewrite Nat2Z.id.
  rewrite nth_error_app2 by lia. now rewrite Nat.sub_diag.
Qed.

Lemma slice_nonneg {A} (data : list A) a b :
  0 <= a -> a <= b -> b <= len data ->
  slice data a b = firstn (Z.to_nat (b - a)) (skipn (Z.to_nat a) data).
Proof.
  intros Ha Hab Hb. unfold slice, clamp.
  replace (a <? 0) with false by (symmetry; apply Z.ltb_ge; lia).
  replace (b <? 0) with false by (symmetry; apply Z.ltb_ge; lia).
  now rewrite !Z.min_l by lia.
Qed.

Lemma at_cursor_slice data off x rest :
  at_cursor data off (x ++ rest) -> slice data off (off + len x) = x.
Proof.
  intros (pre & -> & ->).
  pose proof (len_nonneg pre). pose proof (len_nonneg x).
  pose proof (len_nonneg rest).
  rewrite slice_nonneg by (rewrite ?len_app; lia).
  replace (len pre + len x - len pre) with (len x) by lia.
  unfold len. rewrite !Nat2Z.id.
  rewrite skipn_app, skipn_all, Nat.sub_diag. cbn [skipn app].
  rewrite firstn_app, firstn_all, Nat.sub_diag. cbn [firstn].
  now rewrite app_nil_r.
Qed.

Lemma unpack_le_split n z :
  unpack_le n (le_split n z) = Ok (z mod 2 ^ (Z.of_nat n * 8)).
Proof.
  unfold unpack_le. rewrite length_le_split, Nat.eqb_refl.
  now rewrite le_combine_split.
Qed.

(** A little-endian field of [n] bytes at the cursor. *)
Lemma at_cursor_unpack data off n z rest :
  at_cursor data off (le_split n z ++ rest) ->
  0 <= z < 2 ^ (Z.of_nat n * 8) ->
  unpack_le n (slice data off (off + Z.of_nat n)) = Ok z.
Proof.
  intros H Hz. rewrite <- (len_le_split n z).
  rewrite (at_cursor_slice _ _ _ _ H), unpack_le_split.
  now rewrite Z.mod_small.
Qed.

Lemma at_cursor_unpack4 data off z rest :
  at_cursor data off (le_split 4 z ++ rest) ->
  0 <= z < 2 ^ 32 ->
  unpack_le 4 (slice data off (off + 4)) = Ok z
  /\ at_cursor data (off + 4) rest.
Proof.
  intros H Hz. split.
  - exact (at_cursor_unpack data off 4 z rest H Hz).
  - apply at_cursor_advance in H. now rewrite len_le_split in H.
Qed.

Lemma at_cursor_unpack8 data off z rest :
  at_cursor data off (le_split 8 z ++ rest) ->
  0 <= z < 2 ^ 64 ->
  unpack_le 8 (slice data off (off + 8)) = Ok z
  /\ at_cursor data (off + 8) rest.
Proof.
  intros H Hz. split.
  - exact (at_cursor_unpack data off 8 z rest H Hz).
  - apply at_cursor_advance in H. now rewrite len_le_split in H.
Qed.

End Cursor.

(* ================================================================== *)
(** ** The VarInt decoder on the encoder's output *)
(* ================================================================== *)

Section VarInt.

Lemma len_encode_varint n :
  len (encode_varint n) =
    if n <? 0xfd then 1
    else if n <=? 0xffff then 3
    else if n <=? 0xffffffff then 5 else 9.
Proof.
  unfold encode_varint.
  destruct (n <? 0xfd); [reflexivity|].
  destruct (n <=? 0xffff); [now rewrite len_cons, len_le_split|].
  destruct (n <=? 0xffffffff); now rewrite len_cons, len_le_split.
Qed.

Lemma len_encode_varint_pos n : 1 <= len (encode_varint n).
Proof.
  rewrite len_encode_varint.
  destruct (n <? 0xfd); [lia|].
  destruct (n <=? 0xffff); [lia|].
  destruct (n <=? 0xffffffff); lia.
Qed.

Lemma parse_varint_at data off n rest :
  at_cursor data off (encode_varint n ++ rest) ->
  0 <= n < 2 ^ 64 ->
  parse_varint data off = Ok (n, off + len (encode_varint n)).
Proof.
  intros H Hn. rewrite len_encode_varint.
  unfold encode_varint in H. unfold parse_varint.
  destruct (n <? 0xfd) eqn:E1.
  - apply Z.ltb_lt in E1. cbn [app] in H.
    rewrite (at_cursor_index _ _ _ _ H). cbn [bind].
    rewrite byte.unsigned_of_Z. unfold byte.wrap.
    rewrite Z.mod_small by lia.
    replace (n <? 0xfd) with true by (symmetry; apply Z.ltb_lt; lia).
    reflexivity.
  - apply Z.ltb_ge in E1.
    destruct (n <=? 0xffff) eqn:E2; [|destruct (n <=? 0xffffffff) eqn:E3];
      cbn [app] in H;
      rewrite (at_cursor_index _ _ _ _ H); cbn [bind];
      apply at_cursor_advance1 in H.
    + apply Z.leb_le in E2.
      change (byte.unsigned Byte.xfd) with 253.
      cbn [Z.ltb Z.eqb Z.compare Pos.compare Pos.compare_cont Pos.eqb].
      replace (off + 3) with (off + 1 + Z.of_nat 2) by lia.
      rewrite (at_cursor_unpack _ _ 2 n rest H)
        by (change (2 ^ (Z.of_nat 2 * 8)) with 65536; lia).
      cbn [bind]. do 2 f_equal.
    + apply Z.leb_le in E3.
      change (byte.unsigned Byte.xfe) with 254.
      cbn [Z.ltb Z.eqb Z.compare Pos.compare Pos.compare_cont Pos.eqb].
      replace (off + 5) with (off + 1 + Z.of_nat 4) by lia.
      rewrite (at_cursor_unpack _ _ 4 n rest H)
        by (change (2 ^ (Z.of_nat 4 * 8)) with 4294967296; lia).
      cbn [bind]. do 2 f_equal.
    + change (byte.unsigned Byte.xff) with 255.
      cbn [Z.ltb Z.eqb Z.compare Pos.compare Pos.compare_cont Pos.eqb].
      replace (off + 9) with (off + 1 + Z.of_nat 8) by lia.
      rewrite (at_cursor_unpack _ _ 8 n rest H)
        by (change (2 ^ (Z.of_nat 8 * 8)) with (2 ^ 64); lia).
      cbn [bind]. do 2 f_equal.
Qed.

End VarInt.

(* ================================================================== *)
(** ** The parser's loops on serialized sequences *)
(* ================================================================== *)

Section Loops.

Lemma gtb_false a b : a <= b -> (a >? b) = false.
Proof. intros. rewrite Z.gtb_ltb. apply Z.ltb_ge. lia. Qed.


Lemma geb_false a b : a < b -> (a >=? b) = false.
Proof. intros. rewrite Z.geb_leb. apply Z.leb_gt. lia. Qed.


Lemma u32_range z : u32 z = true -> 0 <= z < 2 ^ 32.
Proof. unfold u32. rewrite andb_true_iff, Z.leb_le, Z.ltb_lt. lia. Qed.

Lemma u64_range z : u64 z = true -> 0 <= z < 2 ^ 64.
Proof. unfold u64. rewrite andb_true_iff, Z.leb_le, Z.ltb_lt. lia. Qed.

(** The hex of a length-prefixed field, as the parser computes it. *)
Lemma hex_if_nonempty (b : bytes) :
  (if len b >? 0 then hex b else EmptyString) = hex b.
Proof. destruct b; reflexivity. Qed.

Lemma parse_inputs_at ins : forall data off rest acc,
  forallb input_in_width ins = true ->
  at_cursor data off (List.concat (map serialize_input ins) ++ rest) ->
  exists off',
    parse_inputs (List.length ins) data off acc
      = Ok (acc ++ map describe_input ins, off')
    /\ at_cursor data off' rest.
Proof.
  induction ins as [|i ins IH]; intros data off rest acc Hw H.
  - exists off. cbn. rewrite app_nil_r. now split.
  - cbn [forallb] in Hw. apply andb_true_iff in Hw as [Hi Hw].
    unfold input_in_width in Hi.
    repeat (apply andb_true_iff in Hi as [Hi ?]).
    apply Nat.eqb_eq in Hi.
    match goal with Hv : u32 (vout i) = true |- _ =>
      apply u32_range in Hv end.
    match goal with Hv : u32 (sequence i) = true |- _ =>
      apply u32_range in Hv end.
    match goal with Hv : u64 _ = true |- _ => apply u64_range in Hv end.
    cbn [map List.concat] in H.
    unfold serialize_input at 1, with_length at 1 in H.
    repeat rewrite <- app_assoc in H.
    assert (Htx : len (rev (txid i)) = 32)
      by (unfold len; rewrite length_rev, Hi; reflexivity).
    cbn [List.length parse_inputs].
    pose proof (at_cursor_len _ _ _ H) as Hlen.
    rewrite !len_app, Htx, !len_le_split in Hlen.
    pose proof (len_encode_varint_pos (len (script_sig i))).
    pose proof (len_nonneg (script_sig i)).
    pose proof (len_nonneg (List.concat (map serialize_input ins))).
    pose proof (len_nonneg rest).
    rewrite gtb_false by lia.
    replace (slice data off (off + 32)) with (rev (txid i))
      by (rewrite <- Htx; symmetry; apply (at_cursor_slice _ _ _ _ H)).
    rewrite rev_involutive.
    apply at_cursor_advance in H. rewrite Htx in H.
    destruct (at_cursor_unpack4 _ _ _ _ H ltac:(assumption)) as [-> H'].
    cbn [bind]. clear H. rename H' into H.
    rewrite (parse_varint_at _ _ _ _ H) by assumption. cbn [bind].
    apply at_cursor_advance in H.
    rewrite (at_cursor_slice _ _ _ _ H).
    apply at_cursor_advance in H.
    destruct (at_cursor_unpack4 _ _ _ _ H ltac:(assumption)) as [-> H'].
    cbn [bind]. clear H. rename H' into H.
    rewrite hex_if_nonempty.
    destruct (IH _ _ _
                (acc ++ [mkParsedInput (hex (txid i)) (vout i)
                           (hex (script_sig i)) (len (script_sig i))
                           (format_x 8 (sequence i))]) Hw H)
      as (off' & Hp & Hc).
    exists off'. split; [|exact Hc].
    rewrite Hp. rewrite <- app_assoc. reflexivity.
Qed.

Lemma parse_outputs_at outs : forall data off rest acc,
  forallb output_in_width outs = true ->
  at_cursor data off (List.concat (map serialize_output outs) ++ rest) ->
  exists off',
    parse_outputs (List.length outs) data off acc
      = Ok (acc ++ map describe_output outs, off')
    /\ at_cursor data off' rest.
Proof.
  induction outs as [|o outs IH]; intros data off rest acc Hw H.
  - exists off. cbn. rewrite app_nil_r. now split.
  - cbn [forallb] in Hw. apply andb_true_iff in Hw as [Ho Hw].
    unfold output_in_width in Ho. apply andb_true_iff in Ho as [Hv Hs].
    apply u64_range in Hv. apply u64_range in Hs.
    cbn [map List.concat] in H.
    unfold serialize_output at 1, with_length at 1 in H.
    repeat rewrite <- app_assoc in H.
    cbn [List.length parse_outputs].
    pose proof (at_cursor_len _ _ _ H) as Hlen.
    rewrite !len_app, !len_le_split in Hlen.
    pose proof (len_encode_varint_pos (len (script_pubkey o))).
    pose proof (len_nonneg (script_pubkey o)).
    pose proof (len_nonneg (List.concat (map serialize_output outs))).
    pose proof (len_nonneg rest).
    rewrite gtb_false by lia.
    destruct (at_cursor_unpack8 _ _ _ _ H Hv) as [-> H'].
    cbn [bind]. clear H. rename H' into H.
    rewrite geb_false by lia.
    rewrite (parse_varint_at _ _ _ _ H) by assumption. cbn [bind].
    apply at_cursor_advance in H.
    rewrite gtb_false by lia.
    rewrite (at_cursor_slice _ _ _ _ H).
    apply at_cursor_advance in H.
    destruct (IH _ _ _
                (acc ++ [mkParsedOutput (value o) (format_x 16 (value o))
                           (len (script_pubkey o))
                           (hex (script_pubkey o))]) Hw H)
      as (off' & Hp & Hc).
    exists off'. split; [|exact Hc].
    rewrite Hp. rewrite <- app_assoc. reflexivity.
Qed.

Lemma parse_witness_items_at (items : list bytes) : forall data off rest acc,
  forallb (fun item => u64 (len item)) items = true ->
  at_cursor data off (List.concat (map with_length items) ++ rest) ->
  exists off',
    parse_witness_items (List.length items) data off acc
      = Ok (acc ++ map describe_item items, off')
    /\ at_cursor data off' rest.
Proof.
  induction items as [|it items IH]; intros data off rest acc Hw H.
  - exists off. cbn. rewrite app_nil_r. now split.
  - cbn [forallb] in Hw. apply andb_true_iff in Hw as [Hi Hw].
    apply u64_range in Hi.
    cbn [map List.concat] in H. unfold with_length at 1 in H.
    repeat rewrite <- app_assoc in H.
    cbn [List.length parse_witness_items].
    pose proof (at_cursor_len _ _ _ H) as Hlen.
    rewrite !len_app in Hlen.
    pose proof (len_encode_varint_pos (len it)).
    pose proof (len_nonneg it).
    pose proof (len_nonneg (List.concat (map with_length items))).
    pose proof (len_nonneg rest).
    rewrite geb_false by lia.
    rewrite (parse_varint_at _ _ _ _ H) by assumption. cbn [bind].
    apply at_cursor_advance in H.
    rewrite gtb_false by lia.
    rewrite (at_cursor_slice _ _ _ _ H).
    apply at_cursor_advance in H.
    rewrite hex_if_nonempty.
    destruct (IH _ _ _ (acc ++ [mkWitnessItem (len it) (hex it)]) Hw H)
      as (off' & Hp & Hc).
    exists off'. split; [|exact Hc].
    rewrite Hp. rewrite <- app_assoc. reflexivity.
Qed.

Lemma parse_witnesses_at (ws : list Witness) : forall data off rest acc,
  forallb witness_in_width ws = true ->
  at_cursor data off (List.concat (map serialize_witness ws) ++ rest) ->
  exists off',
    parse_witnesses (List.length ws) data off acc
      = Ok (acc ++ map (map describe_item) ws, off')
    /\ at_cursor data off' rest.
Proof.
  induction ws as [|w ws IH]; intros data off rest acc Hw H.
  - exists off. cbn. rewrite app_nil_r. now split.
  - cbn [forallb] in Hw. apply andb_true_iff in Hw as [Hi Hw].
    unfold witness_in_width in Hi. apply andb_true_iff in Hi as [Hc Hi].
    apply u64_range in Hc.
    cbn [map List.concat] in H. unfold serialize_witness at 1 in H.
    repeat rewrite <- app_assoc in H.
    cbn [List.length parse_witnesses].
    pose proof (at_cursor_len _ _ _ H) as Hlen.
    rewrite !len_app in Hlen.
    pose proof (len_encode_varint_pos (len w)).
    pose proof (len_nonneg (List.concat (map with_length w))).
    pose proof (len_nonneg (List.concat (map serialize_witness ws))).
    pose proof (len_nonneg rest).
    rewrite geb_false by lia.
    rewrite (parse_varint_at _ _ _ _ H) by assumption. cbn [bind].
    apply at_cursor_advance in H.
    rewrite to_nat_len.
    destruct (parse_witness_items_at w _ _ _ [] Hi H) as (off1 & -> & Hnext).
    cbn [bind app].
    destruct (IH _ _ _ (acc ++ [map describe_item w]) Hw Hnext)
      as (off' & Hp & Hc').
    exists off'. split; [|exact Hc'].
    rewrite Hp. rewrite <- app_assoc. reflexivity.
Qed.

End Loops.

(* ================================================================== *)
(** ** The parser on a serialized transaction *)
(* ================================================================== *)

Section RoundTrip.


Lemma in_width_parts tx :
  in_width tx = true ->
  i32 (version tx) = true
  /\ u64 (len (inputs tx)) = true
  /\ forallb input_in_width (inputs tx) = true
  /\ u64 (len (outputs tx)) = true
  /\ forallb output_in_width (outputs tx) = true
  /\ forallb witness_in_width (witnesses tx) = true
  /\ u32 (locktime tx) = true.
Proof.
  unfold in_width. rewrite !andb_true_iff. tauto.
Qed.

Lemma parse_body_at tx data off v m f :
  in_width tx = true ->
  aligned tx = true ->
  at_cursor data off (body_bytes tx) ->
  exists off',
    parse_body data v (witness_carrying tx) m f off
      = Ok (mkBeforeLocktime v (witness_carrying tx) m f
              (len (inputs tx)) (map describe_input (inputs tx))
              (len (outputs tx)) (map describe_output (outputs tx))
              (map (map describe_item) (witnesses tx)) off')
    /\ at_cursor data off' (le_split 4 (locktime tx)).
Proof.
  intros Hw Ha H.
  destruct (in_width_parts tx Hw) as (_ & Hni & Hi & Hno & Ho & Hwit & _).
  apply u64_range in Hni. apply u64_range in Hno.
  unfold body_bytes in H. unfold parse_body.
  rewrite (parse_varint_at _ _ _ _ H) by assumption. cbn [bind].
  apply at_cursor_advance in H. rewrite to_nat_len.
  destruct (parse_inputs_at _ _ _ _ [] Hi H) as (o1 & -> & H1).
  cbn [bind app]. clear H.
  rewrite (parse_varint_at _ _ _ _ H1) by assumption. cbn [bind].
  apply at_cursor_advance in H1. rewrite to_nat_len.
  destruct (parse_outputs_at _ _ _ _ [] Ho H1) as (o2 & -> & H2).
  cbn [bind app]. clear H1.
  unfold aligned in Ha.
  destruct (witness_carrying tx) eqn:Ewc.
  - apply Nat.eqb_eq in Ha.
    pose proof (at_cursor_len _ _ _ H2) as Hlen.
    rewrite len_app, len_le_split in Hlen.
    pose proof (len_nonneg (List.concat (map serialize_witness (witnesses tx)))).
    replace (o2 <? len data) with true by (symmetry; apply Z.ltb_lt; lia).
    cbn [andb]. rewrite <- Ha.
    destruct (parse_witnesses_at _ _ _ _ [] Hwit H2) as (o3 & -> & H3).
    cbn [bind app]. exists o3. now split.
  - apply Nat.eqb_eq in Ha. apply length_zero_iff_nil in Ha.
    rewrite Ha. cbn [andb bind map]. exists o2. split; [reflexivity|].
    exact H2.
Qed.

Lemma encode_varint_first n :
  1 <= n -> exists b tl, encode_varint n = b :: tl /\ byte.unsigned b <> 0.
Proof.
  intros Hn. unfold encode_varint.
  destruct (n <? 0xfd) eqn:E.
  - apply Z.ltb_lt in E. exists (byte.of_Z n), []. split; [reflexivity|].
    rewrite byte.unsigned_of_Z. unfold byte.wrap.
    rewrite Z.mod_small by lia. lia.
  - destruct (n <=? 0xffff); [|destruct (n <=? 0xffffffff)];
      eexists; eexists; (split; [reflexivity|]); discriminate.
Qed.

Lemma parse_marker_flag_segwit data off rest :
  at_cursor data off (Byte.x00 :: Byte.x01 :: rest) ->
  parse_marker_flag data off = Ok (true, Some 0, Some 1, off + 1 + 1).
Proof.
  intros H. unfold parse_marker_flag.
  pose proof (at_cursor_len _ _ _ H) as Hlen. rewrite !len_cons in Hlen.
  pose proof (len_nonneg rest).
  replace (off <? len data) with true by (symmetry; apply Z.ltb_lt; lia).
  rewrite (at_cursor_index _ _ _ _ H). cbn [bind].
  change (byte.unsigned Byte.x00 =? 0) with true. cbn iota.
  apply at_cursor_advance1 in H.
  rewrite (at_cursor_index _ _ _ _ H). reflexivity.
Qed.

Lemma parse_marker_flag_legacy data off b rest :
  at_cursor data off (b :: rest) ->
  byte.unsigned b <> 0 ->
  parse_marker_flag data off = Ok (false, None, None, off).
Proof.
  intros H Hb. unfold parse_marker_flag.
  pose proof (at_cursor_len _ _ _ H) as Hlen. rewrite !len_cons in Hlen.
  pose proof (len_nonneg rest).
  replace (off <? len data) with true by (symmetry; apply Z.ltb_lt; lia).
  rewrite (at_cursor_index _ _ _ _ H). cbn [bind].
  replace (byte.unsigned b =? 0) with false
    by (symmetry; apply Z.eqb_neq; exact Hb).
  reflexivity.
Qed.

Lemma parse_locktime_at data off z :
  at_cursor data off (le_split 4 z) ->
  0 <= z < 2 ^ 32 ->
  parse_locktime data off = Ok (z, off + 4).
Proof.
  intros H Hz. unfold parse_locktime.
  pose proof (at_cursor_len _ _ _ H) as Hlen. rewrite len_le_split in Hlen.
  replace (off + 4 <=? len data) with true
    by (symmetry; apply Z.leb_le; lia).
  rewrite <- (app_nil_r (le_split 4 z)) in H.
  destruct (at_cursor_unpack4 _ _ _ _ H Hz) as [-> _]. reflexivity.
Qed.

Lemma parse_version_at data v rest :
  at_cursor data 0 (le_split 4 v ++ rest) ->
  unpack_le 4 (slice data 0 (0 + 4)) = Ok (v mod 2 ^ 32)
  /\ at_cursor data (0 + 4) rest.
Proof.
  intros H. split.
  - pose proof (at_cursor_slice _ _ _ _ H) as Hs.
    rewrite len_le_split in Hs. change (Z.of_nat 4) with 4 in Hs.
    rewrite Hs. apply unpack_le_split.
  - apply at_cursor_advance in H. now rewrite len_le_split in H.
Qed.

Lemma parse_serialize tx :
  in_width tx = true ->
  aligned tx = true ->
  witness_carrying tx = true \/ inputs tx <> [] ->
  parse_segwit_bytes (serialize tx) = Ok (describe tx).
Proof.
  intros Hw Ha Hin.
  assert (H : at_cursor (serialize tx) 0
                (le_split 4 (version tx)
                   ++ (if witness_carrying tx
                       then [Byte.x00; Byte.x01] else [])
                   ++ body_bytes tx))
    by apply at_cursor_start.
  unfold describe. revert H. generalize (serialize tx). intros data H.
  unfold parse_segwit_bytes, parse_before_locktime.
  destruct (parse_version_at _ _ _ H) as [-> H0]. cbn [bind]. clear H.
  destruct (in_width_parts tx Hw) as (_ & Hni & _ & _ & _ & _ & Hl).
  apply u64_range in Hni. apply u32_range in Hl.
  assert (Hbody : forall m f off,
    at_cursor data off (body_bytes tx) ->
    (b <- parse_body data (version tx mod 2 ^ 32) (witness_carrying tx)
                     m f off ;;
     '(locktime, _) <- parse_locktime data (b_offset b) ;;
     Ok (make_result data b locktime))
    = Ok (mkParsedTx (format_x 8 (version tx mod 2 ^ 32))
            (witness_carrying tx)
            (option_map (format_x 2) m) (option_map (format_x 2) f)
            (len (inputs tx)) (map describe_input (inputs tx))
            (len (outputs tx)) (map describe_output (outputs tx))
            (map (map describe_item) (witnesses tx))
            (format_x 8 (locktime tx)) (len data))).
  { intros m f off Hb.
    destruct (parse_body_at tx data off (version tx mod 2 ^ 32) m f Hw Ha Hb)
      as (off' & -> & Hc).
    cbn [bind b_offset]. rewrite (parse_locktime_at _ _ _ Hc Hl).
    reflexivity. }
  destruct (witness_carrying tx) eqn:Ewc.
  - cbn [app] in H0.
    rewrite (parse_marker_flag_segwit _ _ _ H0). cbn [bind].
    do 2 apply at_cursor_advance1 in H0.
    rewrite (Hbody _ _ _ H0). reflexivity.
  - destruct Hin as [Hin|Hin]; [discriminate|].
    cbn [app] in H0.
    assert (1 <= len (inputs tx)).
    { destruct (inputs tx); [contradiction|]. rewrite len_cons.
      pose proof (len_nonneg l). lia. }
    destruct (encode_varint_first (len (inputs tx))) as (b & tl & Eb & Hb);
      [assumption|].
    pose proof H0 as H1. unfold body_bytes in H1. rewrite Eb in H1.
    cbn [app] in H1.
    rewrite (parse_marker_flag_legacy _ _ _ _ H1 Hb). cbn [bind].
    rewrite (Hbody _ _ _ H0). reflexivity.
Qed.

End RoundTrip.

(* ================================================================== *)
(** ** The VarInt decoder on arbitrary buffers *)
(* ================================================================== *)

Section Decoder.

Lemma index_nonneg data i :
  0 <= i ->
  index data i =
    if len data <=? i then Raise IndexError
    else match nth_error data (Z.to_nat i) with
         | Some b => Ok (byte.unsigned b)
         | None => Raise IndexError
         end.
Proof.
  intros Hi. unfold index.
  assert (E : (i <? 0) = false) by (apply Z.ltb_ge; lia).
  rewrite E. cbv zeta. rewrite E. reflexivity.
Qed.

Lemma index_ok_range data i b :
  0 <= i -> index data i = Ok b -> i < len data /\ 0 <= b < 256.
Proof.
  intros Hi. rewrite index_nonneg by assumption.
  destruct (len data <=? i) eqn:E; [discriminate|].
  apply Z.leb_gt in E.
  destruct (nth_error data (Z.to_nat i)) as [b0|]; [|discriminate].
  intros [= <-]. split; [assumption|].
  pose proof (byte.unsigned_range b0) as Hr.
  change (2 ^ 8) with 256 in Hr. exact Hr.
Qed.


Lemma length_slice (data : bytes) a b :
  0 <= a -> 0 <= b ->
  len (slice data a b)
    = Z.max 0 (Z.min b (len data) - Z.min a (len data)).
Proof.
  intros Ha Hb. unfold slice, clamp.
  replace (a <? 0) with false by (symmetry; apply Z.ltb_ge; lia).
  replace (b <? 0) with false by (symmetry; apply Z.ltb_ge; lia).
  unfold len. rewrite length_firstn, length_skipn. lia.
Qed.

Lemma unpack_le_full (data : bytes) a n :
  0 <= a -> a + Z.of_nat n <= len data ->
  unpack_le n (slice data a (a + Z.of_nat n))
    = Ok (le_combine (slice data a (a + Z.of_nat n))).
Proof.
  intros Ha Hn. unfold unpack_le.
  pose proof (length_slice data a (a + Z.of_nat n) Ha ltac:(lia)) as Hl.
  unfold len in Hl, Hn.
  replace (Nat.eqb (List.length (slice data a (a + Z.of_nat n))) n)
    with true by (symmetry; apply Nat.eqb_eq; lia).
  reflexivity.
Qed.

Lemma unpack_le_short (data : bytes) a n :
  0 <= a -> len data < a + Z.of_nat n -> 0 < Z.of_nat n ->
  unpack_le n (slice data a (a + Z.of_nat n)) = Raise StructError.
Proof.
  intros Ha Hn Hpos. unfold unpack_le.
  pose proof (length_slice data a (a + Z.of_nat n) Ha ltac:(lia)) as Hl.
  unfold len in Hl, Hn.
  replace (Nat.eqb (List.length (slice data a (a + Z.of_nat n))) n)
    with false by (symmetry; apply Nat.eqb_neq; lia).
  reflexivity.
Qed.

Lemma le_combine_range (bs : bytes) n :
  List.length bs = n -> 0 <= le_combine bs < 2 ^ (8 * Z.of_nat n).
Proof. intros <-. apply le_combine_bound. Qed.

Lemma varint_width_cases b :
  varint_width b = 1 \/ varint_width b = 3
  \/ varint_width b = 5 \/ varint_width b = 9.
Proof.
  unfold varint_width.
  destruct (b <? 0xfd); [tauto|].
  destruct (b =? 0xfd); [tauto|].
  destruct (b =? 0xfe); tauto.
Qed.

(** The decoder in terms of the announced width. *)
Lemma parse_varint_unfold data off b :
  index data off = Ok b ->
  parse_varint data off =
    if b <? 0xfd then Ok (b, off + 1)
    else
      v <- unpack_le (Z.to_nat (varint_width b - 1))
             (slice data (off + 1)
                    (off + 1 + Z.of_nat (Z.to_nat (varint_width b - 1)))) ;;
      Ok (v, off + varint_width b).
Proof.
  intros Hb. unfold parse_varint, varint_width. rewrite Hb. cbn [bind].
  destruct (b <? 0xfd); [reflexivity|].
  destruct (b =? 0xfd);
    [replace (off + 1 + Z.of_nat (Z.to_nat (3 - 1))) with (off + 3) by lia;
     reflexivity|].
  destruct (b =? 0xfe);
    [replace (off + 1 + Z.of_nat (Z.to_nat (5 - 1))) with (off + 5) by lia;
     reflexivity|].
  replace (off + 1 + Z.of_nat (Z.to_nat (9 - 1))) with (off + 9) by lia.
  reflexivity.
Qed.

Lemma parse_varint_enough data off b :
  0 <= off ->
  index data off = Ok b ->
  off + varint_width b <= len data ->
  exists n, parse_varint data off = Ok (n, off + varint_width b)
            /\ 0 <= n < 2 ^ 64.
Proof.
  intros Ho Hb Hw. rewrite (parse_varint_unfold _ _ _ Hb).
  destruct (index_ok_range _ _ _ Ho Hb) as [Hlt Hr].
  pose proof (varint_width_cases b) as Hc.
  unfold varint_width in *.
  destruct (b <? 0xfd) eqn:E1.
  - exists b. split; [reflexivity|lia].
  - set (k := Z.to_nat ((if b =? 253 then 3 else if b =? 254 then 5 else 9) - 1)) in *.
    assert (Hk : Z.of_nat k
                 = (if b =? 253 then 3 else if b =? 254 then 5 else 9) - 1)
      by (subst k; lia).
    rewrite unpack_le_full by lia. cbn [bind].
    eexists. split; [reflexivity|].
    pose proof (length_slice data (off + 1) (off + 1 + Z.of_nat k)
                  ltac:(lia) ltac:(lia)) as Hl.
    pose proof (le_combine_range
                  (slice data (off + 1) (off + 1 + Z.of_nat k)) k) as Hle.
    unfold len in Hl. specialize (Hle ltac:(unfold len in *; lia)).
    assert (2 ^ (8 * Z.of_nat k) <= 2 ^ 64)
      by (apply Z.pow_le_mono_r; lia).
    lia.
Qed.

Lemma parse_varint_short data off :
  0 <= off ->
  (forall b, index data off = Ok b -> len data < off + varint_width b) ->
  exists e, parse_varint data off = Raise e.
Proof.
  intros Ho Hshort.
  destruct (index data off) as [b|e] eqn:Hb.
  - specialize (Hshort b eq_refl).
    rewrite (parse_varint_unfold _ _ _ Hb).
    destruct (index_ok_range _ _ _ Ho Hb) as [Hlt Hr].
    pose proof (varint_width_cases b) as Hc.
    unfold varint_width in *.
    destruct (b <? 0xfd) eqn:E1; [lia|].
    rewrite unpack_le_short by lia. cbn [bind]. eauto.
  - unfold parse_varint. rewrite Hb. cbn [bind]. eauto.
Qed.

Lemma parse_varint_ok_inv data off n off' :
  0 <= off ->
  parse_varint data off = Ok (n, off') ->
  exists b, index data off = Ok b
            /\ off' = off + varint_width b
            /\ off' <= len data /\ 0 <= n.
Proof.
  intros Ho Hp.
  destruct (index data off) as [b|e] eqn:Hb;
    [|unfold parse_varint in Hp; rewrite Hb in Hp; discriminate].
  exists b. split; [reflexivity|].
  destruct (index_ok_range _ _ _ Ho Hb) as [Hlt Hr].
  destruct (Z_le_gt_dec (off + varint_width b) (len data)) as [Hle|Hgt].
  - destruct (parse_varint_enough _ _ _ Ho Hb Hle) as (m & Hm & Hr').
    rewrite Hm in Hp. injection Hp as <- <-. repeat split; lia.
  - destruct (parse_varint_short data off Ho) as (e & He).
    + intros b' Hb'. rewrite Hb in Hb'. injection Hb' as <-. lia.
    + rewrite He in Hp. discriminate.
Qed.

End Decoder.

(* ================================================================== *)
(** ** Progress of the loops *)
(* ================================================================== *)

Section Progress.

Ltac varint_step H :=
  match type of H with
  | context [parse_varint ?d ?o] =>
      let n := fresh "n" in
      let o1 := fresh "o" in
      let E := fresh "E" in
      destruct (parse_varint d o) as [[n o1]|] eqn:E;
      [cbn [bind] in H;
       apply parse_varint_ok_inv in E; [|lia];
       let b := fresh "b" in
       let Hb := fresh "Hb" in
       destruct E as (b & Hb & -> & ? & ?);
       pose proof (varint_width_cases b)
      |discriminate H]
  end.

Lemma parse_witness_items_progress n : forall tx_bytes offset acc items off',
  0 <= offset ->
  parse_witness_items n tx_bytes offset acc = Ok (items, off') ->
  offset <= off' /\ len items - len acc <= off' - offset.
Proof.
  induction n as [|n IH]; intros tx_bytes offset acc items off' Ho H;
    cbn [parse_witness_items] in H.
  - injection H as <- <-. lia.
  - destruct (offset >=? len tx_bytes); [injection H as <- <-; lia|].
    varint_step H.
    destruct (_ >? len tx_bytes); [injection H as <- <-; lia|].
    apply IH in H; [|lia].
    rewrite len_app, len_cons, len_nil in H. lia.
Qed.

Lemma parse_witnesses_progress n : forall tx_bytes offset acc ws off',
  0 <= offset ->
  parse_witnesses n tx_bytes offset acc = Ok (ws, off') ->
  offset <= off' /\ len ws - len acc <= off' - offset.
Proof.
  induction n as [|n IH]; intros tx_bytes offset acc ws off' Ho H;
    cbn [parse_witnesses] in H.
  - injection H as <- <-. lia.
  - destruct (offset >=? len tx_bytes); [injection H as <- <-; lia|].
    varint_step H.
    destruct (parse_witness_items _ _ _ _) as [[items o2]|] eqn:E2;
      [|discriminate H].
    cbn [bind] in H.
    apply parse_witness_items_progress in E2; [|lia].
    apply IH in H; [|lia].
    rewrite len_app, len_cons, len_nil in H. lia.
Qed.


Lemma parse_outputs_progress n : forall tx_bytes offset acc outs off',
  0 <= offset ->
  parse_outputs n tx_bytes offset acc = Ok (outs, off') ->
  offset <= off' /\ len outs - len acc <= off' - offset.
Proof.
  induction n as [|n IH]; intros tx_bytes offset acc outs off' Ho H;
    cbn [parse_outputs] in H.
  - injection H as <- <-. lia.
  - destruct (offset + 8 >? len tx_bytes); [injection H as <- <-; lia|].
    destruct (unpack_le 8 _) as [v|]; [|discriminate H].
    cbn [bind] in H.
    destruct (offset + 8 >=? len tx_bytes); [injection H as <- <-; lia|].
    varint_step H.
    destruct (_ >? len tx_bytes); [injection H as <- <-; lia|].
    apply IH in H; [|lia].
    rewrite len_app, len_cons, len_nil in H. lia.
Qed.

Lemma parse_inputs_progress n : forall tx_bytes offset acc ins off',
  0 <= offset ->
  parse_inputs n tx_bytes offset acc = Ok (ins, off') ->
  offset <= off' /\ len ins - len acc <= off' - offset.
Proof.
  induction n as [|n IH]; intros tx_bytes offset acc ins off' Ho H;
    cbn [parse_inputs] in H.
  - injection H as <- <-. lia.
  - destruct (offset + 32 >? len tx_bytes); [injection H as <- <-; lia|].
    destruct (unpack_le 4 _) as [v|]; [|discriminate H].
    cbn [bind] in H.
    varint_step H.
    destruct (unpack_le 4 _) as [sq|]; [|discriminate H].
    cbn [bind] in H.
    apply IH in H; [|lia].
    rewrite len_app, len_cons, len_nil in H. lia.
Qed.

End Progress.

(* ================================================================== *)
(** ** The claims *)
(* ================================================================== *)

(** C2. For every n below 2^64, decoding the compact VarInt encoding of n
    (one byte below 0xfd, otherwise 0xfd, 0xfe, 0xff followed by 2, 4, 8
    little-endian bytes) from offset 0 returns n together with the length
    of the encoding, which is 1, 3, 5 or 9 by the ranges. *)
Theorem varint_decode_encode (n : Z) :
  0 <= n < 2 ^ 64 ->
  parse_varint (encode_varint n) 0 = Ok (n, len (encode_varint n))
  /\ len (encode_varint n)
     = (if n <? 0xfd then 1
        else if n <=? 0xffff then 3
        else if n <=? 0xffffffff then 5 else 9).
Proof.
  intros Hn. split; [|apply len_encode_varint].
  pose proof (at_cursor_start (encode_varint n)) as H.
  rewrite <- (app_nil_r (encode_varint n)) in H at 2.
  exact (parse_varint_at _ _ _ _ H Hn).
Qed.

Lemma varint_decode_encode_witness :
  parse_varint (encode_varint 65536) 0 = Ok (65536, len (encode_varint 65536)).
Proof. apply (varint_decode_encode 65536). lia. Defined.

(** C9. At every offset of a buffer that holds the bytes the prefix
    announces, the VarInt decoder returns a new offset strictly beyond the
    given one, 1, 3, 5 or 9 bytes further.  For the loops this gives
    progress: whatever count was announced, each of the four loops, which
    run over the range of that count, collects at most as many entries as
    it moves the offset forward. *)
Theorem parse_varint_progress :
  (forall data offset first_byte,
      0 <= offset ->
      index data offset = Ok first_byte ->
      offset + varint_width first_byte <= len data ->
      exists n new_offset,
        parse_varint data offset = Ok (n, new_offset)
        /\ offset < new_offset
        /\ (new_offset - offset = 1 \/ new_offset - offset = 3
            \/ new_offset - offset = 5 \/ new_offset - offset = 9))
  /\ (forall n tx_bytes offset,
         0 <= offset ->
         (forall acc r off',
             parse_inputs n tx_bytes offset acc = Ok (r, off') ->
             offset <= off' /\ len r - len acc <= off' - offset)
         /\ (forall acc r off',
                parse_outputs n tx_bytes offset acc = Ok (r, off') ->
                offset <= off' /\ len r - len acc <= off' - offset)
         /\ (forall acc r off',
                parse_witness_items n tx_bytes offset acc = Ok (r, off') ->
                offset <= off' /\ len r - len acc <= off' - offset)
         /\ (forall acc r off',
                parse_witnesses n tx_bytes offset acc = Ok (r, off') ->
                offset <= off' /\ len r - len acc <= off' - offset)).
Proof.
  split.
  - intros data offset b Ho Hb Hw.
    destruct (parse_varint_enough _ _ _ Ho Hb Hw) as (n & Hn & _).
    exists n, (offset + varint_width b). split; [exact Hn|].
    pose proof (varint_width_cases b). split; [lia|].
    replace (offset + varint_width b - offset) with (varint_width b) by lia.
    assumption.
  - intros n tx_bytes offset Ho.
    split; [|split; [|split]]; intros acc r off' H.
    all: first [ apply (parse_inputs_progress _ _ _ _ _ _ Ho H)
               | apply (parse_outputs_progress _ _ _ _ _ _ Ho H)
               | apply (parse_witness_items_progress _ _ _ _ _ _ Ho H)
               | apply (parse_witnesses_progress _ _ _ _ _ _ Ho H) ].
Qed.

Lemma parse_varint_progress_witness :
  exists n new_offset,
    parse_varint (unhex "00fe01020304") 1 = Ok (n, new_offset)
    /\ 1 < new_offset
    /\ (new_offset - 1 = 1 \/ new_offset - 1 = 3
        \/ new_offset - 1 = 5 \/ new_offset - 1 = 9).
Proof.
  apply (proj1 parse_varint_progress (unhex "00fe01020304") 1 254).
  - lia.
  - reflexivity.
  - vm_compute. discriminate.
Defined.

(** C10. When fewer than four bytes remain where the locktime should
    start, the parser does not report an error: it returns a result whose
    locktime is zero, rendered "00000000". *)
Theorem short_locktime_is_zero (tx_hex : string) (tx_bytes : bytes)
        (b : BeforeLocktime) :
  fromhex tx_hex = Ok tx_bytes ->
  parse_before_locktime tx_bytes = Ok b ->
  len tx_bytes - b_offset b < 4 ->
  exists r, parse_segwit_transaction tx_hex = Ok r
            /\ p_locktime r = "00000000"%string.
Proof.
  intros Hx Hb Hshort.
  unfold parse_segwit_transaction, parse_segwit_bytes.
  rewrite Hx. cbn [bind]. rewrite Hb. cbn [bind].
  unfold parse_locktime.
  replace (b_offset b + 4 <=? len tx_bytes) with false
    by (symmetry; apply Z.leb_gt; lia).
  cbn [bind]. eexists. split; reflexivity.
Qed.

Lemma short_locktime_is_zero_witness :
  exists r, parse_segwit_transaction "010000000100" = Ok r
            /\ p_locktime r = "00000000"%string.
Proof.
  eapply (short_locktime_is_zero "010000000100").
  - reflexivity.
  - vm_compute. reflexivity.
  - vm_compute. reflexivity.
Defined.

Section Header.

Lemma parse_body_fields data v s m f off b :
  parse_body data v s m f off = Ok b ->
  b_version b = v /\ b_is_segwit b = s /\ b_marker b = m /\ b_flag b = f.
Proof.
  unfold parse_body. intros H.
  destruct (parse_varint data off) as [[ic o1]|]; [|discriminate H].
  cbn [bind] in H.
  destruct (parse_inputs _ _ _ _) as [[ins o2]|]; [|discriminate H].
  cbn [bind] in H.
  destruct (parse_varint data o2) as [[oc o3]|]; [|discriminate H].
  cbn [bind] in H.
  destruct (parse_outputs _ _ _ _) as [[outs o4]|]; [|discriminate H].
  cbn [bind] in H.
  destruct (if s && (o4 <? len data) then _ else _) as [[ws o5]|];
    [|discriminate H].
  cbn [bind] in H. injection H as <-. cbn. auto.
Qed.

Lemma parse_marker_flag_any data flag :
  index data 4 = Ok 0 ->
  index data 5 = Ok flag ->
  parse_marker_flag data 4 = Ok (true, Some 0, Some flag, 6).
Proof.
  intros H4 H5. unfold parse_marker_flag.
  destruct (index_ok_range data 4 0 ltac:(lia) H4) as [Hlt _].
  replace (4 <? len data) with true by (symmetry; apply Z.ltb_lt; lia).
  rewrite H4. cbn [bind]. change (0 =? 0) with true. cbv iota.
  change (4 + 1) with 5. rewrite H5. reflexivity.
Qed.

End Header.

(** C3, as the parser has it.  When the byte after the four version bytes
    is 0x00, the parser takes it as the marker and the byte after it as
    the flag whatever its value, marks the transaction as SegWit and goes
    on with the input count at offset 6; the value of the flag is only
    recorded in the result.  (0x01 is the particular case of the claim.) *)
Theorem marker_then_any_flag (tx_bytes : bytes) (flag : Z) :
  index tx_bytes 4 = Ok 0 ->
  index tx_bytes 5 = Ok flag ->
  parse_before_locktime tx_bytes
    = parse_body tx_bytes (le_combine (slice tx_bytes 0 4))
                 true (Some 0) (Some flag) 6
  /\ (forall r, parse_segwit_bytes tx_bytes = Ok r ->
                p_is_segwit r = true
                /\ p_marker r = Some "00"%string
                /\ p_flag r = Some (format_x 2 flag)).
Proof.
  intros H4 H5.
  destruct (index_ok_range tx_bytes 5 flag ltac:(lia) H5) as [Hlt _].
  assert (Hb : parse_before_locktime tx_bytes
               = parse_body tx_bytes (le_combine (slice tx_bytes 0 4))
                            true (Some 0) (Some flag) 6).
  { pose proof (unpack_le_full tx_bytes 0 4 ltac:(lia)
                  ltac:(change (Z.of_nat 4) with 4; lia)) as Hv.
    change (0 + Z.of_nat 4) with 4 in Hv.
    unfold parse_before_locktime. cbv zeta. change (0 + 4) with 4.
    rewrite Hv. cbn [bind].
    rewrite (parse_marker_flag_any _ _ H4 H5). reflexivity. }
  split; [exact Hb|].
  intros r Hr. unfold parse_segwit_bytes in Hr. rewrite Hb in Hr.
  destruct (parse_body _ _ _ _ _ _) as [b|] eqn:E; [|discriminate Hr].
  cbn [bind] in Hr.
  apply parse_body_fields in E. destruct E as (_ & Es & Em & Ef).
  destruct (parse_locktime _ _) as [[lt o]|]; [|discriminate Hr].
  cbn [bind] in Hr. injection Hr as <-.
  cbn [make_result p_is_segwit p_marker p_flag].
  rewrite Es, Em, Ef. repeat split.
Qed.

Lemma marker_then_any_flag_witness :
  parse_before_locktime (unhex real_signed_tx_hex)
  = parse_body (unhex real_signed_tx_hex)
               (le_combine (slice (unhex real_signed_tx_hex) 0 4))
               true (Some 0) (Some 1) 6.
Proof.
  apply (proj1 (marker_then_any_flag (unhex real_signed_tx_hex) 1
                  eq_refl eq_refl)).
Defined.

(** C3 as stated fails: with marker 0x00 followed by 0x02 the parser
    raises nothing and returns a result with flag "02". *)
Lemma flag_is_not_checked :
  index (unhex "010000000002000000000000") 4 = Ok 0
  /\ index (unhex "010000000002000000000000") 5 = Ok 2
  /\ parse_segwit_transaction "010000000002000000000000"
     = Ok (mkParsedTx "00000001" true (Some "00"%string) (Some "02"%string)
                      0 [] 0 [] [] "00000000" 12).
Proof. repeat split; vm_compute; reflexivity. Qed.

Section Truncation.



Lemma unpack4_full (data : bytes) a :
  0 <= a -> a + 4 <= len data ->
  exists v, unpack_le 4 (slice data a (a + 4)) = Ok v.
Proof.
  intros Ha Hl. eexists.
  exact (unpack_le_full data a 4 Ha Hl).
Qed.

Lemma unpack4_short (data : bytes) a :
  0 <= a -> len data < a + 4 ->
  unpack_le 4 (slice data a (a + 4)) = Raise StructError.
Proof.
  intros Ha Hl.
  exact (unpack_le_short data a 4 Ha Hl ltac:(lia)).
Qed.






End Truncation.


Section Hex.

Lemma fromhex_hex_byte (b : byte) (rest : string) :
  fromhex (String (hex_digit (byte.unsigned b / 16))
             (String (hex_digit (byte.unsigned b mod 16)) rest))
  = bind (fromhex rest) (fun bs => Ok (b :: bs)).
Proof. destruct b; reflexivity. Qed.

Lemma fromhex_hex (data : bytes) : fromhex (hex data) = Ok data.
Proof.
  induction data as [|b data IH]; [reflexivity|].
  cbn [hex]. rewrite fromhex_hex_byte, IH. reflexivity.
Qed.

Lemma hex_injective (a b : bytes) : hex a = hex b -> a = b.
Proof.
  intros H. apply (f_equal fromhex) in H.
  rewrite !fromhex_hex in H. now injection H.
Qed.

End Hex.

Section Describe.

Lemma hex_value_digit d :
  0 <= d < 16 -> hex_value (hex_digit d) = Some d.
Proof.
  intros Hd.
  assert (H : d = 0 \/ d = 1 \/ d = 2 \/ d = 3 \/ d = 4 \/ d = 5 \/ d = 6
              \/ d = 7 \/ d = 8 \/ d = 9 \/ d = 10 \/ d = 11 \/ d = 12
              \/ d = 13 \/ d = 14 \/ d = 15) by lia.
  repeat (destruct H as [->|H]; [reflexivity|]). subst d. reflexivity.
Qed.

Lemma hex_number_digits fuel : forall n acc,
  0 <= n < 2 ^ Z.of_nat fuel ->
  hex_number (hex_digits_aux fuel n acc)
  = n * 16 ^ Z.of_nat (String.length acc) + hex_number acc.
Proof.
  induction fuel as [|fuel IH]; intros n acc Hn.
  - cbn [hex_digits_aux]. change (2 ^ Z.of_nat 0) with 1 in Hn.
    replace n with 0 by lia. lia.
  - cbn [hex_digits_aux].
    assert (Hm : 0 <= n mod 16 < 16) by (apply Z.mod_pos_bound; lia).
    assert (Hv : hex_number (String (hex_digit (n mod 16)) acc)
                 = n mod 16 * 16 ^ Z.of_nat (String.length acc)
                   + hex_number acc)
      by (cbn [hex_number]; now rewrite hex_value_digit).
    pose proof (Z.div_mod n 16 ltac:(lia)) as Hdm.
    destruct (n / 16 =? 0) eqn:E.
    + apply Z.eqb_eq in E. rewrite Hv. f_equal. f_equal. lia.
    + rewrite IH.
      * rewrite Hv. cbn [String.length]. rewrite Nat2Z.inj_succ.
        rewrite Z.pow_succ_r by lia. nia.
      * rewrite Nat2Z.inj_succ, Z.pow_succ_r in Hn by lia.
        split; [apply Z.div_pos; lia|].
        apply Z.div_lt_upper_bound; lia.
Qed.

Lemma hex_number_zeros k s : hex_number (zeros k s) = hex_number s.
Proof.
  induction k as [|k IH]; [reflexivity|].
  cbn [zeros hex_number]. change (hex_value "0"%char) with (Some 0).
  rewrite IH. lia.
Qed.

(** [format_x] loses nothing on non-negative numbers. *)
Lemma hex_number_format width n : 0 <= n -> hex_number (format_x width n) = n.
Proof.
  intros Hn. unfold format_x.
  replace (n <? 0) with false by (symmetry; apply Z.ltb_ge; lia).
  rewrite hex_number_zeros. unfold hex_digits.
  rewrite hex_number_digits.
  - cbn [String.length hex_number]. lia.
  - split; [assumption|].
    destruct (Z.eq_dec n 0) as [->|Hz]; [reflexivity|].
    rewrite Nat2Z.inj_succ, Z2Nat.id by apply Z.log2_nonneg.
    apply Z.log2_spec. lia.
Qed.

Lemma format_x_injective width a b :
  0 <= a -> 0 <= b -> format_x width a = format_x width b -> a = b.
Proof.
  intros Ha Hb H. apply (f_equal hex_number) in H.
  now rewrite !hex_number_format in H by assumption.
Qed.

Lemma describe_input_injective i j :
  input_in_width i = true -> input_in_width j = true ->
  describe_input i = describe_input j -> i = j.
Proof.
  unfold input_in_width. rewrite !andb_true_iff.
  intros (((_ & _) & _) & Hi) (((_ & _) & _) & Hj) H.
  apply u32_range in Hi. apply u32_range in Hj.
  destruct i as [ti vi si qi], j as [tj vj sj qj]. cbn in *.
  injection H as Ht Hv Hs _ Hq.
  apply hex_injective in Ht. apply hex_injective in Hs.
  apply format_x_injective in Hq; [|lia|lia].
  now subst.
Qed.

Lemma describe_output_injective (o p : TxOutput) :
  describe_output o = describe_output p -> o = p.
Proof.
  destruct o as [vo so], p as [vp sp]. cbn.
  intros H. injection H as Hv _ _ Hs.
  apply hex_injective in Hs. now subst.
Qed.

Lemma describe_item_injective (a b : bytes) :
  describe_item a = describe_item b -> a = b.
Proof.
  intros H. injection H as _ Hd. now apply hex_injective.
Qed.

Lemma map_injective {A B} (f : A -> B) (P : A -> Prop) :
  (forall a b, P a -> P b -> f a = f b -> a = b) ->
  forall l l', Forall P l -> Forall P l' -> map f l = map f l' -> l = l'.
Proof.
  intros Hf l. induction l as [|a l IH]; intros [|b l'] Hl Hl' H;
    try discriminate; [reflexivity|].
  cbn [map] in H. injection H as Hab Hll.
  inversion Hl; inversion Hl'; subst.
  f_equal; [apply Hf; assumption|apply IH; assumption].
Qed.

(** The description determines the transaction, up to how the
    witness-carrying flag came about. *)
Lemma describe_determines (tx tx' : Transaction) :
  in_width tx = true -> in_width tx' = true ->
  describe tx = describe tx' ->
  version tx = version tx'
  /\ inputs tx = inputs tx'
  /\ outputs tx = outputs tx'
  /\ witness_carrying tx = witness_carrying tx'
  /\ witnesses tx = witnesses tx'
  /\ locktime tx = locktime tx'.
Proof.
  intros Hw Hw' H.
  destruct (in_width_parts tx Hw) as (Hv & _ & Hi & _ & _ & _ & Hl).
  destruct (in_width_parts tx' Hw') as (Hv' & _ & Hi' & _ & _ & _ & Hl').
  apply u32_range in Hl. apply u32_range in Hl'.
  unfold i32 in Hv, Hv'. rewrite andb_true_iff, Z.leb_le, Z.ltb_lt in Hv, Hv'.
  unfold describe in H.
  injection H as Hver Hwc _ _ _ Hins _ Houts Hwit Hlock _.
  apply format_x_injective in Hver;
    [|apply Z.mod_pos_bound; lia|apply Z.mod_pos_bound; lia].
  apply format_x_injective in Hlock; [|lia|lia].
  repeat split.
  - pose proof (Z.div_mod (version tx) (2 ^ 32) ltac:(lia)) as E.
    pose proof (Z.div_mod (version tx') (2 ^ 32) ltac:(lia)) as E'.
    change (Z.pow_pos 2 32) with (2 ^ 32) in Hver. lia.
  - apply (map_injective describe_input
             (fun i => input_in_width i = true)).
    + intros a b. apply describe_input_injective.
    + apply Forall_forall. apply forallb_forall. exact Hi.
    + apply Forall_forall. apply forallb_forall. exact Hi'.
    + exact Hins.
  - apply (map_injective describe_output (fun _ => True)).
    + intros a b _ _. apply describe_output_injective.
    + apply Forall_forall. auto.
    + apply Forall_forall. auto.
    + exact Houts.
  - exact Hwc.
  - apply (map_injective (map describe_item) (fun _ => True)).
    + intros a b _ _.
      apply (map_injective describe_item (fun _ => True)).
      * intros x y _ _. apply describe_item_injective.
      * apply Forall_forall. auto.
      * apply Forall_forall. auto.
    + apply Forall_forall. auto.
    + apply Forall_forall. auto.
    + exact Hwit.
  - exact Hlock.
Qed.

End Describe.

(** C1, as the parser has it.  For every transaction whose fields are
    within their widths and whose witnesses are aligned with its inputs,
    and that either carries witnesses or has at least one input, parsing
    the serialization returns exactly the description of the transaction:
    version, inputs (id, index, unlocking script, sequence), outputs
    (value, locking script), witnesses and locktime. *)
Theorem parse_serialize_roundtrip (tx : Transaction) :
  in_width tx = true ->
  aligned tx = true ->
  witness_carrying tx = true \/ inputs tx <> [] ->
  parse_segwit_transaction (hex (serialize tx)) = Ok (describe tx).
Proof.
  intros Hw Ha Hin. unfold parse_segwit_transaction.
  rewrite fromhex_hex. cbn [bind].
  exact (parse_serialize tx Hw Ha Hin).
Qed.

Lemma parse_serialize_roundtrip_witness :
  parse_segwit_transaction (hex (serialize real_signed_tx))
  = Ok (describe real_signed_tx).
Proof.
  apply (parse_serialize_roundtrip real_signed_tx).
  - reflexivity.
  - reflexivity.
  - left. reflexivity.
Defined.

(** C1 as stated fails for a legacy transaction without inputs: its
    input count 0x00 is taken for the SegWit marker, and the locktime 1
    comes back as zero. *)
Lemma zero_input_legacy_is_misread :
  in_width zero_input_legacy = true
  /\ aligned zero_input_legacy = true
  /\ witness_carrying zero_input_legacy = false
  /\ p_locktime (describe zero_input_legacy) = "00000001"%string
  /\ parse_segwit_transaction (hex (serialize zero_input_legacy))
     = Ok (mkParsedTx "00000001" true (Some "00"%string) (Some "00"%string)
                      1 [] 0 [] [[]] "00000000" 10)
  /\ parse_segwit_transaction (hex (serialize zero_input_legacy))
     <> Ok (describe zero_input_legacy).
Proof.
  repeat split; try (vm_compute; reflexivity).
  intros H. vm_compute in H. discriminate H.
Qed.

Section MarkerFlag.

Lemma serialize_marker tx :
  witness_carrying tx = true ->
  exists v rest,
    List.length v = 4%nat
    /\ serialize tx = v ++ Byte.x00 :: Byte.x01 :: rest.
Proof.
  intros Hwc. unfold serialize. rewrite Hwc.
  exists (le_split 4 (version tx)). eexists.
  split; [apply length_le_split|]. cbn [app]. reflexivity.
Qed.

End MarkerFlag.

(** C6. Every witness-carrying transaction serializes with the marker
    0x00 as its 5th byte and the flag 0x01 as its 6th, also when it was
    built with SegWit enabled and every witness is empty; so does the
    transaction with one input and one output of 666 satoshis to a P2WPKH
    script, built with SegWit enabled and no witness attached. *)
Theorem marker_and_flag_present :
  (forall tx,
      witness_carrying tx = true ->
      nth_error (serialize tx) 4 = Some Byte.x00
      /\ nth_error (serialize tx) 5 = Some Byte.x01)
  /\ (forall tx,
         has_segwit tx = true ->
         (forall w, In w (witnesses tx) -> w = []) ->
         witness_carrying tx = true)
  /\ (has_segwit unsigned_segwit_tx = true
      /\ witnesses unsigned_segwit_tx = []
      /\ map value (outputs unsigned_segwit_tx) = [666]
      /\ nth_error (serialize unsigned_segwit_tx) 4 = Some Byte.x00
      /\ nth_error (serialize unsigned_segwit_tx) 5 = Some Byte.x01).
Proof.
  split; [|split].
  - intros tx Hwc.
    destruct (serialize_marker tx Hwc) as (v & rest & Hv & ->).
    split.
    + rewrite nth_error_app2 by lia. rewrite Hv. reflexivity.
    + rewrite nth_error_app2 by lia. rewrite Hv. reflexivity.
  - intros tx Hs _. unfold witness_carrying. now rewrite Hs.
  - repeat split; vm_compute; reflexivity.
Qed.

Lemma marker_and_flag_present_witness :
  nth_error (serialize unsigned_segwit_tx) 4 = Some Byte.x00
  /\ nth_error (serialize unsigned_segwit_tx) 5 = Some Byte.x01.
Proof.
  apply (proj1 marker_and_flag_present unsigned_segwit_tx). reflexivity.
Defined.

Section P2sh.

Import Script.

Lemma opcode_of_name_hex (b : byte) (rest : bytes) :
  opcode_of_name (hex (b :: rest)) = None.
Proof. destruct b; reflexivity. Qed.

Lemma parse_token_hex (data : bytes) :
  data <> [] -> parse_token (hex data) = Done (Push data).
Proof.
  intros Hd. destruct data as [|b rest]; [contradiction|].
  unfold parse_token. rewrite opcode_of_name_hex, fromhex_hex.
  reflexivity.
Qed.

Lemma push_33 (pk : bytes) :
  List.length pk = 33%nat ->
  item_to_bytes (Push pk) = Done (Byte.x21 :: pk).
Proof.
  intros Hl. cbn [item_to_bytes]. unfold len. rewrite Hl. reflexivity.
Qed.

Lemma push_20 (h : bytes) :
  List.length h = 20%nat ->
  item_to_bytes (Push h) = Done (Byte.x14 :: h).
Proof.
  intros Hl. cbn [item_to_bytes]. unfold len. rewrite Hl. reflexivity.
Qed.

Lemma nonempty_33 (pk : bytes) : List.length pk = 33%nat -> pk <> [].
Proof. intros Hl ->. discriminate Hl. Qed.

End P2sh.

(** C8. The 2-of-3 redeem script built from three 33-byte public keys is
    the item sequence OP_2, key 1, key 2, key 3, OP_3, OP_CHECKMULTISIG;
    its bytes are 0x52, three pushes of 33 bytes (prefix 0x21) and 0x53,
    0xae; the P2SH locking script derived from it is OP_HASH160, the
    push of the hash160 of those bytes, OP_EQUAL, that is 0xa9 0x14, the
    20 bytes of the hash, 0x87. *)
Theorem multisig_p2sh_script (hash160 : bytes -> bytes)
        (alice_pk bob_pk carol_pk : bytes) :
  List.length alice_pk = 33%nat ->
  List.length bob_pk = 33%nat ->
  List.length carol_pk = 33%nat ->
  let redeem_script :=
    [Script.Op Script.OP_2; Script.Push alice_pk; Script.Push bob_pk;
     Script.Push carol_pk; Script.Op Script.OP_3;
     Script.Op Script.OP_CHECKMULTISIG] in
  let redeem_script_bytes :=
    Byte.x52 :: (Byte.x21 :: alice_pk) ++ (Byte.x21 :: bob_pk)
             ++ (Byte.x21 :: carol_pk) ++ [Byte.x53; Byte.xae] in
  let locking_script :=
    [Script.Op Script.OP_HASH160;
     Script.Push (hash160 redeem_script_bytes);
     Script.Op Script.OP_EQUAL] in
  Script.parse_item_list
    (Script.multisig_2of3_tokens (hex alice_pk) (hex bob_pk) (hex carol_pk))
  = Done redeem_script
  /\ Script.to_bytes redeem_script = Done redeem_script_bytes
  /\ Script.p2sh_script_pubkey hash160 redeem_script = Done locking_script
  /\ (List.length (hash160 redeem_script_bytes) = 20%nat ->
      Script.to_bytes locking_script
      = Done (Byte.xa9 :: Byte.x14 :: hash160 redeem_script_bytes
                ++ [Byte.x87])).
Proof.
  intros Ha Hb Hc redeem_script redeem_script_bytes locking_script.
  assert (Hbytes : Script.to_bytes redeem_script = Done redeem_script_bytes).
  { subst redeem_script redeem_script_bytes. cbn [Script.to_bytes].
    rewrite !push_33 by assumption. reflexivity. }
  split; [|split; [exact Hbytes|split]].
  - unfold Script.multisig_2of3_tokens. cbn [Script.parse_item_list].
    rewrite !parse_token_hex by (apply nonempty_33; assumption).
    reflexivity.
  - unfold Script.p2sh_script_pubkey. rewrite Hbytes. reflexivity.
  - intros Hh. subst locking_script. cbn [Script.to_bytes].
    rewrite push_20 by assumption. reflexivity.
Qed.

Lemma multisig_p2sh_script_witness :
  Script.to_bytes
    [Script.Op Script.OP_2; Script.Push alice_pk; Script.Push bob_pk;
     Script.Push carol_pk; Script.Op Script.OP_3;
     Script.Op Script.OP_CHECKMULTISIG]
  = Done (Byte.x52 :: (Byte.x21 :: alice_pk) ++ (Byte.x21 :: bob_pk)
            ++ (Byte.x21 :: carol_pk) ++ [Byte.x53; Byte.xae]).
Proof.
  apply (multisig_p2sh_script (firstn 20) alice_pk bob_pk carol_pk);
    reflexivity.
Defined.

Section SpendData.

Import Sighash.

Lemma spend_data_short ins : forall (amounts : list Z) (scripts : list bytes),
  (List.length amounts < List.length ins)%nat
  \/ (List.length scripts < List.length ins)%nat ->
  spend_data ins amounts scripts = Fail IncompleteSpendData.
Proof.
  induction ins as [|i ins IH]; intros amounts scripts H.
  - cbn in H. lia.
  - cbn [spend_data].
    destruct amounts as [|a amounts]; [reflexivity|].
    destruct scripts as [|s scripts]; [reflexivity|].
    rewrite IH; [reflexivity|]. cbn [List.length] in H. lia.
Qed.

Lemma spend_data_enough ins : forall (amounts : list Z) (scripts : list bytes),
  (List.length ins <= List.length amounts)%nat ->
  (List.length ins <= List.length scripts)%nat ->
  exists data, spend_data ins amounts scripts = Done data
               /\ List.length data = List.length ins.
Proof.
  induction ins as [|i ins IH]; intros amounts scripts Ha Hs.
  - exists []. split; reflexivity.
  - destruct amounts as [|a amounts]; [cbn in Ha; lia|].
    destruct scripts as [|s scripts]; [cbn in Hs; lia|].
    cbn [List.length] in Ha, Hs.
    destruct (IH amounts scripts ltac:(lia) ltac:(lia)) as (d & Hd & Hl).
    exists ((a, s) :: d). cbn [spend_data]. rewrite Hd.
    split; [reflexivity|]. cbn [List.length]. now rewrite Hl.
Qed.

End SpendData.

(** C5. The Taproot key-path digest needs the amount and the scriptPubKey
    of every input of the transaction: with an amounts list or a scripts
    list shorter than the inputs it fails with IncompleteSpendData and
    produces no digest; with both at least as long it produces one. *)
Theorem taproot_digest_needs_all_inputs
        (sha256 : bytes -> bytes) (tagged_hash : string -> bytes -> bytes)
        (tx : Transaction) (input_index : Z)
        (scripts : list bytes) (amounts : list Z) (sighash_type : Z) :
  ((List.length amounts < List.length (inputs tx))%nat
   \/ (List.length scripts < List.length (inputs tx))%nat ->
   Sighash.taproot_sighash sha256 tagged_hash tx input_index
                           scripts amounts sighash_type
   = Fail IncompleteSpendData)
  /\ ((List.length (inputs tx) <= List.length amounts)%nat ->
      (List.length (inputs tx) <= List.length scripts)%nat ->
      exists digest,
        Sighash.taproot_sighash sha256 tagged_hash tx input_index
                                scripts amounts sighash_type
        = Done digest).
Proof.
  split.
  - intros H. unfold Sighash.taproot_sighash.
    rewrite spend_data_short by assumption. reflexivity.
  - intros Ha Hs. unfold Sighash.taproot_sighash.
    destruct (spend_data_enough (inputs tx) amounts scripts Ha Hs)
      as (d & -> & _).
    cbn [and_then]. eexists. reflexivity.
Qed.

Lemma taproot_digest_needs_all_inputs_witness :
  Sighash.taproot_sighash (fun b => b) (fun _ b => b)
                          unsigned_segwit_tx 0 [] [] 0
  = Fail IncompleteSpendData.
Proof.
  apply (taproot_digest_needs_all_inputs (fun b => b) (fun _ b => b)
           unsigned_segwit_tx 0 [] [] 0).
  left. cbn. lia.
Defined.

(* ================================================================== *)
(** ** Further properties of the VarInt decoder *)
(* ================================================================== *)

Section DecoderMore.

Lemma at_cursor_here (pre rest : bytes) : at_cursor (pre ++ rest) (len pre) rest.
Proof. exists pre. split; reflexivity. Qed.

Lemma parse_varint_prefixed data off (p : byte) (k : nat) n rest :
  at_cursor data off (p :: le_split k n ++ rest) ->
  0xfd <= byte.unsigned p ->
  Z.of_nat k = varint_width (byte.unsigned p) - 1 ->
  0 <= n < 2 ^ (Z.of_nat k * 8) ->
  parse_varint data off = Ok (n, off + 1 + Z.of_nat k).
Proof.
  intros H Hp Hk Hn.
  rewrite (parse_varint_unfold _ _ _ (at_cursor_index _ _ _ _ H)).
  replace (byte.unsigned p <? 0xfd) with false
    by (symmetry; apply Z.ltb_ge; lia).
  apply at_cursor_advance1 in H.
  rewrite <- Hk, Nat2Z.id.
  rewrite (at_cursor_unpack _ _ k n rest H Hn). cbn [bind].
  do 2 f_equal. lia.
Qed.

Lemma index_app_left (data more : bytes) i b :
  0 <= i -> index data i = Ok b -> index (data ++ more) i = Ok b.
Proof.
  intros Hi H. destruct (index_ok_range _ _ _ Hi H) as [Hlt _].
  rewrite index_nonneg in * by assumption.
  rewrite len_app. pose proof (len_nonneg more).
  replace (len data <=? i) with false in H
    by (symmetry; apply Z.leb_gt; lia).
  replace (len data + len more <=? i) with false
    by (symmetry; apply Z.leb_gt; lia).
  rewrite nth_error_app1 by (unfold len in Hlt; lia). exact H.
Qed.

Lemma slice_app_left (data more : bytes) a b :
  0 <= a -> a <= b -> b <= len data ->
  slice (data ++ more) a b = slice data a b.
Proof.
  intros Ha Hab Hb. pose proof (len_nonneg more).
  rewrite !slice_nonneg by (rewrite ?len_app; lia).
  rewrite skipn_app, firstn_app.
  unfold len in Hb.
  replace (Z.to_nat (b - a) - List.length (skipn (Z.to_nat a) data))%nat
    with 0%nat by (rewrite length_skipn; lia).
  cbn [firstn]. now rewrite app_nil_r.
Qed.

End DecoderMore.

(** X1. The decoder does not insist on the shortest encoding: after the
    prefix 0xfd, 0xfe or 0xff it returns whatever the 2, 4 or 8
    little-endian bytes hold, also a value that a shorter form could
    carry. *)
Theorem parse_varint_accepts_padded (pre rest : bytes) (n : Z) :
  (0 <= n < 2 ^ 16 ->
   parse_varint (pre ++ Byte.xfd :: le_split 2 n ++ rest) (len pre)
   = Ok (n, len pre + 3))
  /\ (0 <= n < 2 ^ 32 ->
      parse_varint (pre ++ Byte.xfe :: le_split 4 n ++ rest) (len pre)
      = Ok (n, len pre + 5))
  /\ (0 <= n < 2 ^ 64 ->
      parse_varint (pre ++ Byte.xff :: le_split 8 n ++ rest) (len pre)
      = Ok (n, len pre + 9)).
Proof.
  split; [|split]; intros Hn.
  - pose proof (parse_varint_prefixed _ _ Byte.xfd 2 n rest
                  (at_cursor_here pre _) ltac:(vm_compute; discriminate)
                  eq_refl Hn) as H.
    rewrite H. f_equal; f_equal; lia.
  - pose proof (parse_varint_prefixed _ _ Byte.xfe 4 n rest
                  (at_cursor_here pre _) ltac:(vm_compute; discriminate)
                  eq_refl Hn) as H.
    rewrite H. f_equal; f_equal; lia.
  - pose proof (parse_varint_prefixed _ _ Byte.xff 8 n rest
                  (at_cursor_here pre _) ltac:(vm_compute; discriminate)
                  eq_refl Hn) as H.
    rewrite H. f_equal; f_equal; lia.
Qed.

Lemma parse_varint_accepts_padded_witness :
  parse_varint ([] ++ Byte.xfd :: le_split 2 1 ++ []) (len (@nil byte))
  = Ok (1, len (@nil byte) + 3).
Proof.
  apply (proj1 (parse_varint_accepts_padded [] [] 1)). lia.
Defined.

(** X2. A successful decode at an offset of the buffer never leaves it:
    the new offset is at most the length of the buffer, and the value is
    below 0xfd, 2^16, 2^32 or 2^64 according to the 1, 3, 5 or 9 bytes
    read. *)
Theorem parse_varint_result_bounds (data : bytes) (offset n off' : Z) :
  0 <= offset ->
  parse_varint data offset = Ok (n, off') ->
  offset < off' <= len data
  /\ 0 <= n
  /\ (off' - offset = 1 /\ n < 0xfd
      \/ off' - offset = 3 /\ n < 2 ^ 16
      \/ off' - offset = 5 /\ n < 2 ^ 32
      \/ off' - offset = 9 /\ n < 2 ^ 64).
Proof.
  intros Ho Hp.
  destruct (parse_varint_ok_inv _ _ _ _ Ho Hp) as (b & Hb & -> & Hle & Hn).
  pose proof (varint_width_cases b) as Hc.
  split; [lia|]. split; [assumption|].
  rewrite (parse_varint_unfold _ _ _ Hb) in Hp.
  destruct (index_ok_range _ _ _ Ho Hb) as [_ Hr].
  unfold varint_width in *.
  destruct (b <? 0xfd) eqn:E1.
  - injection Hp as <-. apply Z.ltb_lt in E1. left. lia.
  - set (w := if b =? 253 then 3 else if b =? 254 then 5 else 9) in *.
    assert (Hk : Z.of_nat (Z.to_nat (w - 1)) = w - 1) by lia.
    rewrite unpack_le_full in Hp by lia. cbn [bind] in Hp.
    injection Hp as <-.
    pose proof (length_slice data (offset + 1)
                  (offset + 1 + Z.of_nat (Z.to_nat (w - 1)))
                  ltac:(lia) ltac:(lia)) as Hl.
    pose proof (le_combine_range
                  (slice data (offset + 1)
                         (offset + 1 + Z.of_nat (Z.to_nat (w - 1))))
                  (Z.to_nat (w - 1))
                  ltac:(unfold len in *; lia)) as Hv.
    set (v := le_combine _) in *. clearbody v.
    rewrite Hk in Hv.
    assert (Hw : w = 3 \/ w = 5 \/ w = 9)
      by (subst w; destruct (b =? 253); [|destruct (b =? 254)]; lia).
    destruct Hw as [Hw|[Hw|Hw]]; rewrite Hw in Hv;
      [right; left|right; right; left|right; right; right];
      (split; [lia|exact (proj2 Hv)]).
Qed.

Lemma parse_varint_result_bounds_witness :
  0 < 3 <= len (unhex "fd0302")
  /\ 0 <= 515
  /\ (3 - 0 = 1 /\ 515 < 0xfd
      \/ 3 - 0 = 3 /\ 515 < 2 ^ 16
      \/ 3 - 0 = 5 /\ 515 < 2 ^ 32
      \/ 3 - 0 = 9 /\ 515 < 2 ^ 64).
Proof.
  apply (parse_varint_result_bounds (unhex "fd0302") 0 515 3).
  - lia.
  - reflexivity.
Defined.

(** X3. The decoder looks at nothing beyond the bytes it consumes: what
    it returns at an offset of a buffer it returns at the same offset of
    every extension of that buffer. *)
Theorem parse_varint_extend (data more : bytes) (offset : Z)
        (r : Z * Z) :
  0 <= offset ->
  parse_varint data offset = Ok r ->
  parse_varint (data ++ more) offset = Ok r.
Proof.
  intros Ho Hp. destruct r as [n off'].
  destruct (parse_varint_ok_inv _ _ _ _ Ho Hp) as (b & Hb & -> & Hle & _).
  pose proof (varint_width_cases b) as Hc.
  rewrite (parse_varint_unfold _ _ _ Hb) in Hp.
  rewrite (parse_varint_unfold _ _ _ (index_app_left _ more _ _ Ho Hb)).
  destruct (b <? 0xfd); [exact Hp|].
  rewrite slice_app_left by lia. exact Hp.
Qed.

Lemma parse_varint_extend_witness :
  parse_varint (unhex "fd0302" ++ unhex "ffff") 0 = Ok (515, 3).
Proof.
  apply (parse_varint_extend (unhex "fd0302") (unhex "ffff") 0 (515, 3)).
  - lia.
  - reflexivity.
Defined.

(* ================================================================== *)
(** ** What a parse result always satisfies *)
(* ================================================================== *)

Section Results.

Lemma length_hex (data : bytes) :
  Z.of_nat (String.length (hex data)) = 2 * len data.
Proof.
  induction data as [|b data IH]; [reflexivity|].
  cbn [hex String.length]. rewrite len_cons. lia.
Qed.

Lemma length_zeros k s :
  String.length (zeros k s) = (k + String.length s)%nat.
Proof. induction k as [|k IH]; cbn [zeros String.length]; lia. Qed.

Lemma length_hex_digits_aux fuel : forall n acc k,
  (1 <= k)%nat -> 0 <= n < 16 ^ Z.of_nat k ->
  (String.length (hex_digits_aux fuel n acc) <= String.length acc + k)%nat.
Proof.
  induction fuel as [|fuel IH]; intros n acc k Hk Hn;
    cbn [hex_digits_aux]; [lia|].
  destruct (n / 16 =? 0) eqn:E; [cbn [String.length]; lia|].
  apply Z.eqb_neq in E.
  assert (Hge : 16 <= n).
  { destruct (Z_lt_ge_dec n 16) as [Hlt|]; [|lia].
    rewrite Z.div_small in E by lia. contradiction. }
  destruct k as [|[|k]]; [lia|change (16 ^ Z.of_nat 1) with 16 in Hn; lia|].
  specialize (IH (n / 16) (String (hex_digit (n mod 16)) acc) (S k)
                 ltac:(lia)).
  cbn [String.length] in IH.
  assert (0 <= n / 16 < 16 ^ Z.of_nat (S k)).
  { rewrite (Nat2Z.inj_succ (S k)), Z.pow_succ_r in Hn by lia.
    split; [apply Z.div_pos; lia|apply Z.div_lt_upper_bound; lia]. }
  specialize (IH ltac:(assumption)). lia.
Qed.

(** A number that fits the width is printed on exactly that width. *)
Lemma length_format_x (width : nat) n :
  (1 <= width)%nat -> 0 <= n < 16 ^ Z.of_nat width ->
  String.length (format_x width n) = width.
Proof.
  intros Hw Hn. unfold format_x.
  replace (n <? 0) with false by (symmetry; apply Z.ltb_ge; lia).
  rewrite length_zeros. unfold hex_digits.
  pose proof (length_hex_digits_aux (S (Z.to_nat (Z.log2 n))) n
                EmptyString width Hw Hn) as H.
  cbn [String.length] in H. lia.
Qed.

Lemma unpack_le_range n (buf : bytes) v :
  unpack_le n buf = Ok v -> 0 <= v < 2 ^ (8 * Z.of_nat n).
Proof.
  unfold unpack_le. destruct (Nat.eqb _ n) eqn:E; [|discriminate].
  apply Nat.eqb_eq in E. intros [= <-]. now apply le_combine_range.
Qed.

Lemma unpack4_ok_inv (data : bytes) a v :
  0 <= a -> unpack_le 4 (slice data a (a + 4)) = Ok v ->
  a + 4 <= len data /\ 0 <= v < 2 ^ 32.
Proof.
  intros Ha H. split.
  - destruct (Z_le_gt_dec (a + 4) (len data)); [assumption|].
    rewrite unpack4_short in H by lia. discriminate.
  - exact (unpack_le_range 4 _ _ H).
Qed.

Lemma len_slice_full (data : bytes) a n :
  0 <= a -> 0 <= n -> a + n <= len data -> len (slice data a (a + n)) = n.
Proof. intros Ha Hn Hl. rewrite length_slice by lia. lia. Qed.

Lemma length_hex_rev32 (data : bytes) a :
  0 <= a -> a + 32 <= len data ->
  String.length (hex (rev (slice data a (a + 32)))) = 64%nat.
Proof.
  intros Ha Hl.
  pose proof (length_hex (rev (slice data a (a + 32)))) as H.
  unfold len in H at 1. rewrite length_rev in H.
  pose proof (len_slice_full data a 32 Ha ltac:(lia) Hl) as H'.
  unfold len in H'. lia.
Qed.

Lemma length_hex_field (data : bytes) a n :
  0 <= a -> 0 <= n -> a + n <= len data ->
  Z.of_nat (String.length
              (if n >? 0 then hex (slice data a (a + n)) else EmptyString))
  = 2 * n.
Proof.
  intros Ha Hn Hl.
  destruct (n >? 0) eqn:E.
  - rewrite length_hex, len_slice_full by lia. reflexivity.
  - rewrite Z.gtb_ltb in E. apply Z.ltb_ge in E.
    change (Z.of_nat (String.length EmptyString)) with 0. lia.
Qed.

Lemma Forall_snoc {A} (P : A -> Prop) l a :
  Forall P l -> P a -> Forall P (l ++ [a]).
Proof. intros Hl Ha. apply Forall_app. split; [assumption|]. now constructor. Qed.

Lemma parse_inputs_inv n : forall tx_bytes offset acc r off',
  0 <= offset <= len tx_bytes ->
  Forall input_ok acc ->
  parse_inputs n tx_bytes offset acc = Ok (r, off') ->
  offset <= off' <= len tx_bytes
  /\ Forall input_ok r
  /\ len r <= len acc + Z.of_nat n
  /\ 41 * (len r - len acc) <= off' - offset.
Proof.
  induction n as [|n IH]; intros tx_bytes offset acc r off' Ho Hacc H;
    cbn [parse_inputs] in H.
  - injection H as <- <-. repeat split; try assumption; lia.
  - destruct (offset + 32 >? len tx_bytes) eqn:Eg;
      [injection H as <- <-; repeat split; try assumption; lia|].
    rewrite Z.gtb_ltb in Eg. apply Z.ltb_ge in Eg.
    destruct (unpack_le 4 _) as [v|] eqn:Ev; [|discriminate H].
    cbn [bind] in H.
    apply unpack4_ok_inv in Ev; [|lia]. destruct Ev as [Hv1 Hv2].
    destruct (parse_varint tx_bytes (offset + 32 + 4)) as [[L o1]|] eqn:EL;
      [|discriminate H].
    cbn [bind] in H.
    apply parse_varint_result_bounds in EL; [|lia].
    destruct EL as (Ho1 & HL0 & HL).
    assert (HL64 : L < 2 ^ 64) by lia.
    destruct (unpack_le 4 (slice tx_bytes (o1 + L) (o1 + L + 4)))
      as [sq|] eqn:Es; [|discriminate H].
    cbn [bind] in H.
    apply unpack4_ok_inv in Es; [|lia]. destruct Es as [Hs1 Hs2].
    apply IH in H; [|lia|].
    + rewrite len_app, len_cons, len_nil in H.
      destruct H as (H1 & H2 & H3 & H4).
      repeat split; try assumption; lia.
    + apply Forall_snoc; [assumption|].
      unfold input_ok. cbn.
      split; [apply length_hex_rev32; lia|].
      split; [assumption|]. split; [lia|].
      split; [apply length_hex_field; lia|].
      apply length_format_x; [lia|exact Hs2].
Qed.

Lemma parse_outputs_inv n : forall tx_bytes offset acc r off',
  0 <= offset <= len tx_bytes ->
  Forall output_ok acc ->
  parse_outputs n tx_bytes offset acc = Ok (r, off') ->
  offset <= off' <= len tx_bytes
  /\ Forall output_ok r
  /\ len r <= len acc + Z.of_nat n
  /\ 9 * (len r - len acc) <= off' - offset.
Proof.
  induction n as [|n IH]; intros tx_bytes offset acc r off' Ho Hacc H;
    cbn [parse_outputs] in H.
  - injection H as <- <-. repeat split; try assumption; lia.
  - destruct (offset + 8 >? len tx_bytes) eqn:Eg;
      [injection H as <- <-; repeat split; try assumption; lia|].
    rewrite Z.gtb_ltb in Eg. apply Z.ltb_ge in Eg.
    destruct (unpack_le 8 _) as [v|] eqn:Ev; [|discriminate H].
    cbn [bind] in H.
    apply unpack_le_range in Ev.
    destruct (offset + 8 >=? len tx_bytes);
      [injection H as <- <-; repeat split; try assumption; lia|].
    destruct (parse_varint tx_bytes (offset + 8)) as [[L o1]|] eqn:EL;
      [|discriminate H].
    cbn [bind] in H.
    apply parse_varint_result_bounds in EL; [|lia].
    destruct EL as (Ho1 & HL0 & HL).
    assert (HL64 : L < 2 ^ 64) by lia.
    destruct (o1 + L >? len tx_bytes) eqn:Eg2;
      [injection H as <- <-; repeat split; try assumption; lia|].
    rewrite Z.gtb_ltb in Eg2. apply Z.ltb_ge in Eg2.
    apply IH in H; [|lia|].
    + rewrite len_app, len_cons, len_nil in H.
      destruct H as (H1 & H2 & H3 & H4).
      repeat split; try assumption; lia.
    + apply Forall_snoc; [assumption|].
      unfold output_ok. cbn.
      split; [exact Ev|].
      split; [apply length_format_x; [lia|exact Ev]|].
      split; [lia|].
      rewrite length_hex, len_slice_full by lia. reflexivity.
Qed.

Lemma parse_witness_items_inv n : forall tx_bytes offset acc r off',
  0 <= offset <= len tx_bytes ->
  Forall item_ok acc ->
  parse_witness_items n tx_bytes offset acc = Ok (r, off') ->
  offset <= off' <= len tx_bytes
  /\ Forall item_ok r
  /\ len r <= len acc + Z.of_nat n.
Proof.
  induction n as [|n IH]; intros tx_bytes offset acc r off' Ho Hacc H;
    cbn [parse_witness_items] in H.
  - injection H as <- <-. repeat split; try assumption; lia.
  - destruct (offset >=? len tx_bytes);
      [injection H as <- <-; repeat split; try assumption; lia|].
    destruct (parse_varint tx_bytes offset) as [[L o1]|] eqn:EL;
      [|discriminate H].
    cbn [bind] in H.
    apply parse_varint_result_bounds in EL; [|lia].
    destruct EL as (Ho1 & HL0 & HL).
    assert (HL64 : L < 2 ^ 64) by lia.
    destruct (o1 + L >? len tx_bytes) eqn:Eg2;
      [injection H as <- <-; repeat split; try assumption; lia|].
    rewrite Z.gtb_ltb in Eg2. apply Z.ltb_ge in Eg2.
    apply IH in H; [|lia|].
    + rewrite len_app, len_cons, len_nil in H.
      destruct H as (H1 & H2 & H3).
      repeat split; try assumption; lia.
    + apply Forall_snoc; [assumption|].
      unfold item_ok. cbn. split; [lia|].
      apply length_hex_field; lia.
Qed.

Lemma parse_witnesses_inv n : forall tx_bytes offset acc r off',
  0 <= offset <= len tx_bytes ->
  Forall (Forall item_ok) acc ->
  parse_witnesses n tx_bytes offset acc = Ok (r, off') ->
  offset <= off' <= len tx_bytes
  /\ Forall (Forall item_ok) r
  /\ len r <= len acc + Z.of_nat n.
Proof.
  induction n as [|n IH]; intros tx_bytes offset acc r off' Ho Hacc H;
    cbn [parse_witnesses] in H.
  - injection H as <- <-. repeat split; try assumption; lia.
  - destruct (offset >=? len tx_bytes);
      [injection H as <- <-; repeat split; try assumption; lia|].
    destruct (parse_varint tx_bytes offset) as [[c o1]|] eqn:EL;
      [|discriminate H].
    cbn [bind] in H.
    apply parse_varint_result_bounds in EL; [|lia].
    destruct EL as (Ho1 & _ & _).
    destruct (parse_witness_items _ _ _ _) as [[items o2]|] eqn:Ei;
      [|discriminate H].
    cbn [bind] in H.
    apply parse_witness_items_inv in Ei; [|lia|constructor].
    destruct Ei as (Ho2 & Hit & _).
    apply IH in H; [|lia|apply Forall_snoc; assumption].
    rewrite len_app, len_cons, len_nil in H.
    destruct H as (H1 & H2 & H3).
    repeat split; try assumption; lia.
Qed.

End Results.

Section Inversion.

Lemma parse_marker_flag_inv tx_bytes s m f o0 :
  parse_marker_flag tx_bytes 4 = Ok (s, m, f, o0) ->
  (s = true /\ m = Some 0 /\ o0 = 6 /\ index tx_bytes 4 = Ok 0
   /\ exists fl, f = Some fl /\ index tx_bytes 5 = Ok fl)
  \/ (s = false /\ m = None /\ f = None /\ o0 = 4
      /\ index tx_bytes 4 <> Ok 0).
Proof.
  unfold parse_marker_flag. intros H.
  destruct (4 <? len tx_bytes) eqn:E.
  - destruct (index tx_bytes 4) as [b|] eqn:Eb; [|discriminate H].
    cbn [bind] in H. destruct (b =? 0) eqn:Ez.
    + apply Z.eqb_eq in Ez. subst b. cbn [bind] in H.
      change (4 + 1) with 5 in H.
      destruct (index tx_bytes 5) as [fl|] eqn:Ef; [|discriminate H].
      cbn [bind] in H. injection H as <- <- <- <-.
      left. repeat split. exists fl. now split.
    + injection H as <- <- <- <-. right. repeat split.
      intros [= ->]. discriminate Ez.
  - cbn [bind] in H. injection H as <- <- <- <-. right. repeat split.
    apply Z.ltb_ge in E. intros Hi.
    apply index_ok_range in Hi; lia.
Qed.

(** The steps a successful parse went through. *)
Lemma parse_segwit_bytes_inv tx_bytes r :
  parse_segwit_bytes tx_bytes = Ok r ->
  exists version s m f o0 ic o1 ins o2 oc o3 outs o4 ws o5 lt o6,
    unpack_le 4 (slice tx_bytes 0 4) = Ok version
    /\ parse_marker_flag tx_bytes 4 = Ok (s, m, f, o0)
    /\ parse_varint tx_bytes o0 = Ok (ic, o1)
    /\ parse_inputs (Z.to_nat ic) tx_bytes o1 [] = Ok (ins, o2)
    /\ parse_varint tx_bytes o2 = Ok (oc, o3)
    /\ parse_outputs (Z.to_nat oc) tx_bytes o3 [] = Ok (outs, o4)
    /\ (if s && (o4 <? len tx_bytes)
        then parse_witnesses (Z.to_nat ic) tx_bytes o4 []
        else Ok ([], o4)) = Ok (ws, o5)
    /\ parse_locktime tx_bytes o5 = Ok (lt, o6)
    /\ r = mkParsedTx (format_x 8 version) s
                      (option_map (format_x 2) m) (option_map (format_x 2) f)
                      ic ins oc outs ws (format_x 8 lt) (len tx_bytes).
Proof.
  unfold parse_segwit_bytes, parse_before_locktime, parse_body. cbv zeta.
  change (0 + 4) with 4. intros H.
  destruct (unpack_le 4 (slice tx_bytes 0 4)) as [version|] eqn:Ev;
    [|discriminate H].
  cbn [bind] in H.
  destruct (parse_marker_flag tx_bytes 4) as [[[[s m] f] o0]|] eqn:Em;
    [|discriminate H].
  cbn [bind] in H.
  destruct (parse_varint tx_bytes o0) as [[ic o1]|] eqn:E1;
    [|discriminate H].
  cbn [bind] in H.
  destruct (parse_inputs _ _ _ _) as [[ins o2]|] eqn:E2; [|discriminate H].
  cbn [bind] in H.
  destruct (parse_varint tx_bytes o2) as [[oc o3]|] eqn:E3;
    [|discriminate H].
  cbn [bind] in H.
  destruct (parse_outputs _ _ _ _) as [[outs o4]|] eqn:E4; [|discriminate H].
  cbn [bind] in H.
  destruct (if s && (o4 <? len tx_bytes) then _ else _) as [[ws o5]|] eqn:E5;
    [|discriminate H].
  cbn [bind b_offset] in H.
  destruct (parse_locktime tx_bytes o5) as [[lt o6]|] eqn:E6;
    [|discriminate H].
  cbn [bind] in H. injection H as <-.
  exists version, s, m, f, o0, ic, o1, ins, o2, oc, o3, outs, o4, ws, o5,
    lt, o6.
  repeat split; assumption.
Qed.

Lemma parse_locktime_range tx_bytes o lt o' :
  0 <= o -> parse_locktime tx_bytes o = Ok (lt, o') -> 0 <= lt < 2 ^ 32.
Proof.
  unfold parse_locktime. intros Ho H.
  destruct (o + 4 <=? len tx_bytes).
  - destruct (unpack_le 4 _) as [v|] eqn:Ev; [|discriminate H].
    cbn [bind] in H. injection H as <- <-.
    exact (unpack_le_range 4 _ _ Ev).
  - injection H as <- <-. lia.
Qed.

(** The offsets of a successful parse, in order and inside the buffer. *)
Lemma parse_steps_bounds tx_bytes version s m f o0 ic o1 ins o2 oc o3
      outs o4 ws o5 :
  unpack_le 4 (slice tx_bytes 0 4) = Ok version ->
  parse_marker_flag tx_bytes 4 = Ok (s, m, f, o0) ->
  parse_varint tx_bytes o0 = Ok (ic, o1) ->
  parse_inputs (Z.to_nat ic) tx_bytes o1 [] = Ok (ins, o2) ->
  parse_varint tx_bytes o2 = Ok (oc, o3) ->
  parse_outputs (Z.to_nat oc) tx_bytes o3 [] = Ok (outs, o4) ->
  (if s && (o4 <? len tx_bytes)
   then parse_witnesses (Z.to_nat ic) tx_bytes o4 []
   else Ok ([], o4)) = Ok (ws, o5) ->
  (0 <= version < 2 ^ 32)
  /\ 4 <= o0 /\ o0 < o1 /\ o1 <= o2 /\ o2 < o3 /\ o3 <= o4 /\ o4 <= o5
  /\ o5 <= len tx_bytes
  /\ 0 <= ic < 2 ^ 64 /\ 0 <= oc < 2 ^ 64
  /\ Forall input_ok ins /\ len ins <= ic /\ 41 * len ins <= o2 - o1
  /\ Forall output_ok outs /\ len outs <= oc /\ 9 * len outs <= o4 - o3
  /\ Forall (Forall item_ok) ws /\ len ws <= ic /\ len ws <= o5 - o4.
Proof.
  intros Ev Em E1 E2 E3 E4 E5.
  pose proof (unpack_le_range 4 _ _ Ev) as Hv.
  assert (Ho0 : 4 <= o0)
    by (apply parse_marker_flag_inv in Em;
        destruct Em as [(_ & _ & -> & _)|(_ & _ & _ & -> & _)]; lia).
  apply parse_varint_result_bounds in E1; [|lia].
  destruct E1 as (Ho1 & Hic0 & Hic).
  apply parse_inputs_inv in E2; [|lia|constructor].
  destruct E2 as (Ho2 & Hins & Hnin & Hbin).
  rewrite len_nil in Hnin, Hbin.
  apply parse_varint_result_bounds in E3; [|lia].
  destruct E3 as (Ho3 & Hoc0 & Hoc).
  apply parse_outputs_inv in E4; [|lia|constructor].
  destruct E4 as (Ho4 & Houts & Hnout & Hbout).
  rewrite len_nil in Hnout, Hbout.
  assert (Hws : o4 <= o5 <= len tx_bytes
                /\ Forall (Forall item_ok) ws /\ len ws <= ic
                /\ len ws <= o5 - o4).
  { destruct (s && (o4 <? len tx_bytes)).
    - pose proof (parse_witnesses_progress (Z.to_nat ic) tx_bytes o4 [] ws o5
                    ltac:(lia) E5) as Hp.
      apply parse_witnesses_inv in E5; [|lia|constructor].
      rewrite len_nil in *. destruct E5 as (? & ? & ?).
      repeat split; try assumption; lia.
    - injection E5 as <- <-. rewrite len_nil.
      repeat split; try constructor; lia. }
  destruct Hws as (Ho5 & Hwok & Hnws & Hbws).
  repeat split; try assumption; lia.
Qed.

End Inversion.

(** X4. Without a 0x00 byte after the version the result is never SegWit:
    is_segwit is false, marker and flag are None, the input count is the
    VarInt at offset 4, and the witness list is empty whatever follows
    the outputs. *)
Theorem legacy_has_no_witnesses (tx_bytes : bytes) (r : ParsedTx) :
  index tx_bytes 4 <> Ok 0 ->
  parse_segwit_bytes tx_bytes = Ok r ->
  p_is_segwit r = false /\ p_marker r = None /\ p_flag r = None
  /\ p_witnesses r = []
  /\ exists o1, parse_varint tx_bytes 4 = Ok (p_input_count r, o1).
Proof.
  intros Hm H.
  destruct (parse_segwit_bytes_inv _ _ H)
    as (version & s & m & f & o0 & ic & o1 & ins & o2 & oc & o3 & outs
        & o4 & ws & o5 & lt & o6 & _ & Em & E1 & _ & _ & _ & E5 & _ & ->).
  apply parse_marker_flag_inv in Em.
  destruct Em as [(_ & _ & _ & H4 & _)|(-> & -> & -> & -> & _)];
    [contradiction|].
  cbn [andb] in E5. injection E5 as <- <-.
  cbn. repeat split. exists o1. exact E1.
Qed.

Lemma legacy_has_no_witnesses_witness :
  p_is_segwit (describe (mkTransaction 1 [mkTxInput (repeat Byte.x00 32) 0 [] 0]
                                       [] false [] 0)) = false.
Proof.
  apply (legacy_has_no_witnesses
           (serialize (mkTransaction 1 [mkTxInput (repeat Byte.x00 32) 0 [] 0]
                                     [] false [] 0))).
  - vm_compute. discriminate.
  - vm_compute. reflexivity.
Defined.

(** X5. The lists of a result never hold more entries than were
    announced, and the announced counts are below 2^64; an input takes at
    least 41 bytes of the buffer, an output at least 9 and a witness stack
    at least 1, so the lists are also bounded by the size of the buffer,
    whatever the counts say. *)
Theorem result_lists_bounded (tx_bytes : bytes) (r : ParsedTx) :
  parse_segwit_bytes tx_bytes = Ok r ->
  0 <= p_input_count r < 2 ^ 64
  /\ 0 <= p_output_count r < 2 ^ 64
  /\ len (p_inputs r) <= p_input_count r
  /\ len (p_outputs r) <= p_output_count r
  /\ len (p_witnesses r) <= p_input_count r
  /\ 41 * len (p_inputs r) + 9 * len (p_outputs r) + len (p_witnesses r) + 6
     <= len tx_bytes.
Proof.
  intros H.
  destruct (parse_segwit_bytes_inv _ _ H)
    as (version & s & m & f & o0 & ic & o1 & ins & o2 & oc & o3 & outs
        & o4 & ws & o5 & lt & o6 & Ev & Em & E1 & E2 & E3 & E4 & E5 & _ & ->).
  pose proof (parse_steps_bounds _ _ _ _ _ _ _ _ _ _ _ _ _ _ _ _
                Ev Em E1 E2 E3 E4 E5) as Hb.
  cbn [p_input_count p_output_count p_inputs p_outputs p_witnesses].
  repeat split; lia.
Qed.

Lemma result_lists_bounded_witness :
  0 <= 1 < 2 ^ 64
  /\ 0 <= 1 < 2 ^ 64
  /\ len (p_inputs (describe real_signed_tx)) <= 1
  /\ len (p_outputs (describe real_signed_tx)) <= 1
  /\ len (p_witnesses (describe real_signed_tx)) <= 1
  /\ 41 * len (p_inputs (describe real_signed_tx))
     + 9 * len (p_outputs (describe real_signed_tx))
     + len (p_witnesses (describe real_signed_tx)) + 6
     <= len (unhex real_signed_tx_hex).
Proof.
  apply (result_lists_bounded (unhex real_signed_tx_hex)
                              (describe real_signed_tx)).
  vm_compute. reflexivity.
Defined.

(** X6. In every result the recorded lengths agree with the data: each
    script and witness item has exactly two hex characters per byte of
    its recorded length, each transaction id 64; output indexes, values
    and lengths are within 4 and 8 bytes; version, sequences and locktime
    are printed on exactly 8 hex digits, values on 16. *)
Theorem result_fields_well_formed (tx_bytes : bytes) (r : ParsedTx) :
  parse_segwit_bytes tx_bytes = Ok r ->
  String.length (p_version r) = 8%nat
  /\ String.length (p_locktime r) = 8%nat
  /\ p_total_size r = len tx_bytes
  /\ Forall input_ok (p_inputs r)
  /\ Forall output_ok (p_outputs r)
  /\ Forall (Forall item_ok) (p_witnesses r).
Proof.
  intros H.
  destruct (parse_segwit_bytes_inv _ _ H)
    as (version & s & m & f & o0 & ic & o1 & ins & o2 & oc & o3 & outs
        & o4 & ws & o5 & lt & o6 & Ev & Em & E1 & E2 & E3 & E4 & E5 & E6 & ->).
  pose proof (parse_steps_bounds _ _ _ _ _ _ _ _ _ _ _ _ _ _ _ _
                Ev Em E1 E2 E3 E4 E5) as Hb.
  apply parse_locktime_range in E6; [|lia].
  cbn [p_version p_locktime p_total_size p_inputs p_outputs p_witnesses].
  split; [apply length_format_x; [lia|apply Hb]|].
  split; [apply length_format_x; [lia|exact E6]|].
  split; [reflexivity|].
  repeat split; apply Hb.
Qed.

Lemma result_fields_well_formed_witness :
  String.length (p_version (describe real_signed_tx)) = 8%nat
  /\ String.length (p_locktime (describe real_signed_tx)) = 8%nat
  /\ p_total_size (describe real_signed_tx) = len (unhex real_signed_tx_hex)
  /\ Forall input_ok (p_inputs (describe real_signed_tx))
  /\ Forall output_ok (p_outputs (describe real_signed_tx))
  /\ Forall (Forall item_ok) (p_witnesses (describe real_signed_tx)).
Proof.
  apply (result_fields_well_formed (unhex real_signed_tx_hex)
                                   (describe real_signed_tx)).
  vm_compute. reflexivity.
Defined.

(** X7. A buffer that ends right after the four version bytes, or right
    after a 0x00 marker, makes the parser raise IndexError: the input
    count, respectively the flag, is read with a plain index. *)
Theorem header_cut_short (tx_bytes : bytes) :
  (len tx_bytes = 4 -> parse_segwit_bytes tx_bytes = Raise IndexError)
  /\ (len tx_bytes = 5 -> index tx_bytes 4 = Ok 0 ->
      parse_segwit_bytes tx_bytes = Raise IndexError).
Proof.
  assert (Hout : forall i, len tx_bytes <= i ->
                           index tx_bytes i = Raise IndexError).
  { intros i Hi. pose proof (len_nonneg tx_bytes).
    rewrite index_nonneg by lia.
    replace (len tx_bytes <=? i) with true
      by (symmetry; apply Z.leb_le; lia).
    reflexivity. }
  split.
  - intros Hl. unfold parse_segwit_bytes, parse_before_locktime. cbv zeta.
    destruct (unpack4_full tx_bytes 0 ltac:(lia) ltac:(lia)) as (v & ->).
    cbn [bind]. unfold parse_marker_flag. change (0 + 4) with 4.
    replace (4 <? len tx_bytes) with false
      by (symmetry; apply Z.ltb_ge; lia).
    cbn [bind]. unfold parse_body, parse_varint.
    rewrite Hout by lia. reflexivity.
  - intros Hl H4. unfold parse_segwit_bytes, parse_before_locktime. cbv zeta.
    destruct (unpack4_full tx_bytes 0 ltac:(lia) ltac:(lia)) as (v & ->).
    cbn [bind]. unfold parse_marker_flag. change (0 + 4) with 4.
    replace (4 <? len tx_bytes) with true
      by (symmetry; apply Z.ltb_lt; lia).
    rewrite H4. cbn [bind]. change (0 =? 0) with true. cbv iota.
    rewrite Hout by lia. reflexivity.
Qed.

Lemma header_cut_short_witness :
  parse_segwit_bytes (unhex "0200000000") = Raise IndexError.
Proof.
  apply (proj2 (header_cut_short (unhex "0200000000"))); reflexivity.
Defined.

(* ================================================================== *)
(** ** The parser on serializations followed or cut by other bytes *)
(* ================================================================== *)

Section Composition.

Lemma geb_true' a b : b <= a -> (a >=? b) = true.
Proof. intros. rewrite Z.geb_leb. apply Z.leb_le. lia. Qed.

(** From the input count to the end of the outputs. *)
Lemma parse_body_upto_outputs tx data off rest :
  in_width tx = true ->
  at_cursor data off
    (encode_varint (len (inputs tx))
       ++ List.concat (map serialize_input (inputs tx))
       ++ encode_varint (len (outputs tx))
       ++ List.concat (map serialize_output (outputs tx))
       ++ rest) ->
  exists o4,
    at_cursor data o4 rest
    /\ forall v s m f,
       parse_body data v s m f off
       = ('(ws, o5) <-
            (if s && (o4 <? len data)
             then parse_witnesses (List.length (inputs tx)) data o4 []
             else Ok ([], o4)) ;;
          Ok (mkBeforeLocktime v s m f
                (len (inputs tx)) (map describe_input (inputs tx))
                (len (outputs tx)) (map describe_output (outputs tx))
                ws o5)).
Proof.
  intros Hw H.
  destruct (in_width_parts tx Hw) as (_ & Hni & Hi & Hno & Ho & _ & _).
  apply u64_range in Hni. apply u64_range in Hno.
  pose proof (parse_varint_at _ _ _ _ H Hni) as E1.
  apply at_cursor_advance in H.
  destruct (parse_inputs_at _ _ _ _ [] Hi H) as (o1 & E2 & H1).
  pose proof (parse_varint_at _ _ _ _ H1 Hno) as E3.
  apply at_cursor_advance in H1.
  destruct (parse_outputs_at _ _ _ _ [] Ho H1) as (o2 & E4 & H2).
  exists o2. split; [exact H2|].
  intros v s m f. unfold parse_body.
  rewrite E1. cbn [bind]. rewrite to_nat_len, E2. cbn [bind app].
  rewrite E3. cbn [bind]. rewrite to_nat_len, E4. cbn [bind app].
  reflexivity.
Qed.

(** The version and the marker and flag of a serialization. *)
Lemma parse_header_at tx data body :
  in_width tx = true ->
  witness_carrying tx = true \/ inputs tx <> [] ->
  at_cursor data 0
    (le_split 4 (version tx)
       ++ (if witness_carrying tx then [Byte.x00; Byte.x01] else [])
       ++ encode_varint (len (inputs tx)) ++ body) ->
  exists o0,
    at_cursor data o0 (encode_varint (len (inputs tx)) ++ body)
    /\ parse_before_locktime data
       = parse_body data (version tx mod 2 ^ 32) (witness_carrying tx)
                    (if witness_carrying tx then Some 0 else None)
                    (if witness_carrying tx then Some 1 else None) o0.
Proof.
  intros Hw Hin H. unfold parse_before_locktime. cbv zeta.
  destruct (parse_version_at _ _ _ H) as [-> H0]. cbn [bind]. clear H.
  destruct (witness_carrying tx) eqn:Ewc.
  - cbn [app] in H0.
    rewrite (parse_marker_flag_segwit _ _ _ H0). cbn [bind].
    do 2 apply at_cursor_advance1 in H0. eexists. split; [exact H0|].
    reflexivity.
  - destruct Hin as [Hin|Hin]; [discriminate|].
    cbn [app] in H0.
    assert (1 <= len (inputs tx)).
    { destruct (inputs tx); [contradiction|]. rewrite len_cons.
      pose proof (len_nonneg l). lia. }
    destruct (encode_varint_first (len (inputs tx))) as (b & tl & Eb & Hb);
      [assumption|].
    pose proof H0 as H1. rewrite Eb in H1. cbn [app] in H1.
    rewrite (parse_marker_flag_legacy _ _ _ _ H1 Hb). cbn [bind].
    eexists. split; [exact H0|reflexivity].
Qed.

Lemma parse_locktime_then data off z rest :
  at_cursor data off (le_split 4 z ++ rest) ->
  0 <= z < 2 ^ 32 ->
  parse_locktime data off = Ok (z, off + 4).
Proof.
  intros H Hz. unfold parse_locktime.
  pose proof (at_cursor_len _ _ _ H) as Hlen.
  rewrite len_app, len_le_split in Hlen. pose proof (len_nonneg rest).
  replace (off + 4 <=? len data) with true
    by (symmetry; apply Z.leb_le; lia).
  destruct (at_cursor_unpack4 _ _ _ _ H Hz) as [-> _]. reflexivity.
Qed.

Lemma parse_serialize_then tx extra :
  in_width tx = true ->
  aligned tx = true ->
  witness_carrying tx = true \/ inputs tx <> [] ->
  parse_segwit_bytes (serialize tx ++ extra)
  = Ok (with_total_size (describe tx) (len (serialize tx ++ extra))).
Proof.
  intros Hw Ha Hin.
  assert (H : at_cursor (serialize tx ++ extra) 0
                (le_split 4 (version tx)
                   ++ (if witness_carrying tx
                       then [Byte.x00; Byte.x01] else [])
                   ++ encode_varint (len (inputs tx))
                   ++ (List.concat (map serialize_input (inputs tx))
                       ++ encode_varint (len (outputs tx))
                       ++ List.concat (map serialize_output (outputs tx))
                       ++ (if witness_carrying tx
                           then List.concat
                                  (map serialize_witness (witnesses tx))
                           else [])
                       ++ le_split 4 (locktime tx) ++ extra))).
  { unfold serialize. repeat rewrite <- app_assoc. apply at_cursor_start. }
  unfold with_total_size, describe.
  cbn [p_version p_is_segwit p_marker p_flag p_input_count p_inputs
       p_output_count p_outputs p_witnesses p_locktime].
  revert H. generalize (serialize tx ++ extra). intros data H.
  unfold parse_segwit_bytes.
  destruct (parse_header_at tx data _ Hw Hin H) as (o0 & H0 & ->). clear H.
  destruct (parse_body_upto_outputs tx data o0 _ Hw H0) as (o4 & H4 & ->).
  clear H0.
  destruct (in_width_parts tx Hw) as (_ & _ & _ & _ & _ & Hwit & Hl).
  apply u32_range in Hl.
  unfold aligned in Ha.
  destruct (witness_carrying tx) eqn:Ewc.
  - apply Nat.eqb_eq in Ha.
    pose proof (at_cursor_len _ _ _ H4) as Hlen.
    rewrite !len_app, len_le_split in Hlen.
    pose proof (len_nonneg
                  (List.concat (map serialize_witness (witnesses tx)))).
    pose proof (len_nonneg extra).
    replace (o4 <? len data) with true by (symmetry; apply Z.ltb_lt; lia).
    cbn [andb]. rewrite <- Ha.
    destruct (parse_witnesses_at _ _ _ _ [] Hwit H4) as (o5 & -> & H5).
    cbn [bind app b_offset].
    rewrite (parse_locktime_then _ _ _ _ H5 Hl). reflexivity.
  - apply Nat.eqb_eq in Ha. apply length_zero_iff_nil in Ha.
    rewrite Ha. cbn [andb bind map b_offset]. cbn [app] in H4.
    rewrite (parse_locktime_then _ _ _ _ H4 Hl). reflexivity.
Qed.

Lemma parse_witnesses_zeros n : forall k data off acc,
  at_cursor data off (repeat Byte.x00 k) ->
  parse_witnesses n data off acc
  = Ok (acc ++ repeat [] (Nat.min n k), off + Z.of_nat (Nat.min n k)).
Proof.
  induction n as [|n IH]; intros k data off acc H.
  - cbn. rewrite app_nil_r. do 2 f_equal. lia.
  - cbn [parse_witnesses].
    pose proof (at_cursor_len _ _ _ H) as Hlen.
    unfold len in Hlen at 2. rewrite repeat_length in Hlen.
    destruct k as [|k].
    + rewrite geb_true' by lia. cbn. rewrite app_nil_r.
      do 2 f_equal. lia.
    + rewrite geb_false by lia. cbn [repeat] in H.
      unfold parse_varint. rewrite (at_cursor_index _ _ _ _ H).
      cbn [bind]. change (byte.unsigned Byte.x00 <? 253) with true.
      cbv iota. cbn [bind].
      change (Z.to_nat (byte.unsigned Byte.x00)) with 0%nat.
      cbn [bind parse_witness_items].
      apply at_cursor_advance1 in H.
      rewrite (IH k _ _ _ H). rewrite <- app_assoc. cbn [app Nat.min repeat].
      do 2 f_equal. lia.
Qed.

End Composition.

(** X8. The parser never checks that it has consumed the buffer: bytes
    that follow a serialized transaction change nothing in the result but
    its total size. *)
Theorem trailing_bytes_ignored (tx : Transaction) (extra : bytes) :
  in_width tx = true ->
  aligned tx = true ->
  witness_carrying tx = true \/ inputs tx <> [] ->
  parse_segwit_transaction (hex (serialize tx ++ extra))
  = Ok (with_total_size (describe tx) (len (serialize tx) + len extra)).
Proof.
  intros Hw Ha Hin. unfold parse_segwit_transaction.
  rewrite fromhex_hex. cbn [bind]. rewrite <- len_app.
  exact (parse_serialize_then tx extra Hw Ha Hin).
Qed.

Lemma trailing_bytes_ignored_witness :
  parse_segwit_transaction (hex (serialize real_signed_tx ++ unhex "deadbeef"))
  = Ok (with_total_size (describe real_signed_tx)
          (len (serialize real_signed_tx) + len (unhex "deadbeef"))).
Proof.
  apply (trailing_bytes_ignored real_signed_tx (unhex "deadbeef")).
  - reflexivity.
  - reflexivity.
  - left. reflexivity.
Defined.

(** X9. Phase 1 of [compare_hardcoded_vs_actual]: a transaction built with
    SegWit enabled, no witness attached and locktime 0 has no witness
    stacks on the wire.  The parser still returns its version, inputs,
    outputs and locktime, but it takes the zero bytes of the locktime for
    empty witness stacks, one per input and at most four. *)
Theorem unsigned_segwit_parse (tx : Transaction) :
  in_width tx = true ->
  has_segwit tx = true ->
  witnesses tx = [] ->
  locktime tx = 0 ->
  parse_segwit_transaction (hex (serialize tx))
  = Ok (with_witnesses (describe tx)
          (repeat [] (Nat.min (List.length (inputs tx)) 4))).
Proof.
  intros Hw Hs Hwit Hl. unfold parse_segwit_transaction.
  rewrite fromhex_hex. cbn [bind].
  assert (Hwc : witness_carrying tx = true)
    by (unfold witness_carrying; now rewrite Hs).
  assert (H : at_cursor (serialize tx) 0
                (le_split 4 (version tx)
                   ++ (if witness_carrying tx
                       then [Byte.x00; Byte.x01] else [])
                   ++ encode_varint (len (inputs tx))
                   ++ (List.concat (map serialize_input (inputs tx))
                       ++ encode_varint (len (outputs tx))
                       ++ List.concat (map serialize_output (outputs tx))
                       ++ repeat Byte.x00 4))).
  { unfold serialize. rewrite Hwc, Hwit, Hl. apply at_cursor_start. }
  unfold with_witnesses, describe.
  cbn [p_version p_is_segwit p_marker p_flag p_input_count p_inputs
       p_output_count p_outputs p_witnesses p_locktime p_total_size].
  rewrite Hl. revert H. generalize (serialize tx). intros data H.
  unfold parse_segwit_bytes.
  destruct (parse_header_at tx data _ Hw (or_introl Hwc) H)
    as (o0 & H0 & ->).
  clear H.
  destruct (parse_body_upto_outputs tx data o0 _ Hw H0) as (o4 & H4 & ->).
  clear H0. rewrite Hwc.
  pose proof (at_cursor_len _ _ _ H4) as Hlen.
  change (len (repeat Byte.x00 4)) with 4 in Hlen.
  replace (o4 <? len data) with true by (symmetry; apply Z.ltb_lt; lia).
  cbn [andb]. rewrite (parse_witnesses_zeros _ _ _ _ [] H4).
  cbn [bind app b_offset].
  assert (Hlt : parse_locktime data
                  (o4 + Z.of_nat (Nat.min (List.length (inputs tx)) 4))
                = Ok (0, if Nat.eqb (List.length (inputs tx)) 0
                         then o4 + 4
                         else o4 + Z.of_nat
                                     (Nat.min (List.length (inputs tx)) 4))).
  { destruct (List.length (inputs tx)) as [|n] eqn:En.
    - cbn [Nat.min Z.of_nat Nat.eqb]. rewrite Z.add_0_r.
      rewrite <- (app_nil_r (repeat Byte.x00 4)) in H4.
      exact (parse_locktime_then _ _ 0 [] H4 ltac:(lia)).
    - unfold parse_locktime. cbn [Nat.eqb].
      replace (o4 + Z.of_nat (Nat.min (S n) 4) + 4 <=? len data) with false
        by (symmetry; apply Z.leb_gt; lia).
      reflexivity. }
  rewrite Hlt. reflexivity.
Qed.

Lemma unsigned_segwit_parse_witness :
  parse_segwit_transaction (hex (serialize unsigned_segwit_tx))
  = Ok (with_witnesses (describe unsigned_segwit_tx)
          (repeat [] (Nat.min (List.length (inputs unsigned_segwit_tx)) 4))).
Proof.
  apply (unsigned_segwit_parse unsigned_segwit_tx); reflexivity.
Defined.

Section CutLocktime.

Lemma without_locktime_eq tx :
  without_locktime tx
  = le_split 4 (version tx)
      ++ (if witness_carrying tx then [Byte.x00; Byte.x01] else [])
      ++ encode_varint (len (inputs tx))
      ++ (List.concat (map serialize_input (inputs tx))
          ++ encode_varint (len (outputs tx))
          ++ List.concat (map serialize_output (outputs tx))
          ++ (if witness_carrying tx
              then List.concat (map serialize_witness (witnesses tx))
              else [])
          ++ []).
Proof.
  unfold without_locktime.
  set (front := le_split 4 (version tx) ++ _).
  assert (E : serialize tx = front ++ le_split 4 (locktime tx)).
  { subst front. unfold serialize. repeat rewrite <- app_assoc.
    reflexivity. }
  rewrite E, length_app, length_le_split.
  replace (List.length front + 4 - 4)%nat with (List.length front) by lia.
  rewrite firstn_app, firstn_all, Nat.sub_diag. cbn [firstn].
  now rewrite app_nil_r.
Qed.

Lemma len_serialize_witnesses (ws : list Witness) :
  len ws <= len (List.concat (map serialize_witness ws)).
Proof.
  induction ws as [|w ws IH]; [reflexivity|].
  cbn [map List.concat]. unfold serialize_witness at 1.
  rewrite len_cons, !len_app.
  pose proof (len_encode_varint_pos (len w)).
  pose proof (len_nonneg (List.concat (map with_length w))). lia.
Qed.

Lemma len_without_locktime tx :
  len (without_locktime tx) = len (serialize tx) - 4.
Proof.
  assert (E : serialize tx = without_locktime tx ++ le_split 4 (locktime tx)).
  { rewrite without_locktime_eq. unfold serialize.
    repeat rewrite <- app_assoc. reflexivity. }
  rewrite E, len_app, len_le_split. lia.
Qed.

End CutLocktime.

(** X10. For a transaction whose fields are within their widths, whose
    witnesses are aligned with its inputs and that carries witnesses or
    has at least one input, the serialization without its four locktime
    bytes is parsed without error, like the complete one except that the
    locktime reads "00000000" and the total size is four less. *)
Theorem missing_locktime_reads_zero (tx : Transaction) :
  in_width tx = true ->
  aligned tx = true ->
  witness_carrying tx = true \/ inputs tx <> [] ->
  parse_segwit_transaction (hex (without_locktime tx))
  = Ok (with_locktime
          (with_total_size (describe tx) (len (serialize tx) - 4))
          "00000000").
Proof.
  intros Hw Ha Hin. unfold parse_segwit_transaction.
  rewrite fromhex_hex. cbn [bind].
  rewrite <- len_without_locktime.
  pose proof (at_cursor_start (without_locktime tx)) as H.
  rewrite without_locktime_eq in H at 2.
  unfold with_locktime, with_total_size, describe.
  cbn [p_version p_is_segwit p_marker p_flag p_input_count p_inputs
       p_output_count p_outputs p_witnesses p_locktime p_total_size].
  revert H. generalize (without_locktime tx). intros data H.
  unfold parse_segwit_bytes.
  destruct (parse_header_at tx data _ Hw Hin H) as (o0 & H0 & ->). clear H.
  destruct (parse_body_upto_outputs tx data o0 _ Hw H0) as (o4 & H4 & ->).
  clear H0.
  destruct (in_width_parts tx Hw) as (_ & _ & _ & _ & _ & Hwit & _).
  assert (Hend : forall o5, at_cursor data o5 [] ->
                            parse_locktime data o5 = Ok (0, o5)).
  { intros o5 H5. unfold parse_locktime.
    pose proof (at_cursor_len _ _ _ H5) as Hlen. rewrite len_nil in Hlen.
    replace (o5 + 4 <=? len data) with false
      by (symmetry; apply Z.leb_gt; lia).
    reflexivity. }
  unfold aligned in Ha.
  destruct (witness_carrying tx) eqn:Ewc.
  - apply Nat.eqb_eq in Ha.
    pose proof (at_cursor_len _ _ _ H4) as Hlen.
    rewrite len_app, len_nil in Hlen.
    pose proof (len_serialize_witnesses (witnesses tx)) as Hge.
    destruct (witnesses tx) as [|w ws] eqn:Ews.
    + cbn [map List.concat app] in H4, Hlen.
      change (len (@nil byte)) with 0 in Hlen.
      replace (o4 <? len data) with false
        by (symmetry; apply Z.ltb_ge; lia).
      cbn [andb bind b_offset map]. rewrite (Hend _ H4). reflexivity.
    + rewrite len_cons in Hge. pose proof (len_nonneg ws).
      replace (o4 <? len data) with true by (symmetry; apply Z.ltb_lt; lia).
      cbn [andb]. rewrite <- Ha.
      destruct (parse_witnesses_at _ _ _ _ [] Hwit H4) as (o5 & -> & H5).
      cbn [bind app b_offset]. rewrite (Hend _ H5). reflexivity.
  - apply Nat.eqb_eq in Ha. apply length_zero_iff_nil in Ha.
    rewrite Ha. cbn [andb bind map b_offset]. cbn [app] in H4.
    rewrite (Hend _ H4). reflexivity.
Qed.

Lemma missing_locktime_reads_zero_witness :
  parse_segwit_transaction (hex (without_locktime real_signed_tx))
  = Ok (with_locktime
          (with_total_size (describe real_signed_tx)
                           (len (serialize real_signed_tx) - 4))
          "00000000").
Proof.
  apply (missing_locktime_reads_zero real_signed_tx).
  - reflexivity.
  - reflexivity.
  - left. reflexivity.
Defined.

(** X11. A transaction without inputs is never recognised as legacy: the
    serialization of one that carries no witness has its input count 0x00
    right after the version, and whenever the parser returns a result for
    it, that result says SegWit, with marker "00". *)
Theorem no_inputs_never_legacy (tx : Transaction) (r : ParsedTx) :
  witness_carrying tx = false ->
  inputs tx = [] ->
  parse_segwit_bytes (serialize tx) = Ok r ->
  p_is_segwit r = true /\ p_marker r = Some "00"%string.
Proof.
  intros Hwc Hin H.
  assert (H4 : index (serialize tx) 4 = Ok 0).
  { assert (Hc : at_cursor (serialize tx) 4
                   (Byte.x00
                      :: List.concat (map serialize_input (inputs tx))
                      ++ encode_varint (len (outputs tx))
                      ++ List.concat (map serialize_output (outputs tx))
                      ++ [] ++ le_split 4 (locktime tx))).
    { exists (le_split 4 (version tx)). split; [|reflexivity].
      unfold serialize. rewrite Hwc, Hin. reflexivity. }
    exact (at_cursor_index _ _ _ _ Hc). }
  destruct (parse_segwit_bytes_inv _ _ H)
    as (version & s & m & f & o0 & ic & o1 & ins & o2 & oc & o3 & outs
        & o4 & ws & o5 & lt & o6 & _ & Em & _ & _ & _ & _ & _ & _ & ->).
  apply parse_marker_flag_inv in Em.
  destruct Em as [(-> & -> & _)|(_ & _ & _ & _ & Hn)]; [|contradiction].
  split; reflexivity.
Qed.

Lemma no_inputs_never_legacy_witness :
  p_is_segwit (mkParsedTx "00000001" true (Some "00"%string)
                          (Some "00"%string) 1 [] 0 [] [[]] "00000000" 10)
  = true.
Proof.
  apply (no_inputs_never_legacy zero_input_legacy).
  - reflexivity.
  - reflexivity.
  - vm_compute. reflexivity.
Defined.

(* ================================================================== *)
(** ** The whole parse on a buffer that is cut short *)
(* ================================================================== *)

Section CutShort.












End CutShort.


